(** * structlinks: the singly linked list of [LinkedList.py]

    A shallow embedding of [_Node], [LinkedList] and [LinkedListIterator].
    Python objects live in a store: one finite map for the [_Node] objects and
    one for the [LinkedList] objects, both keyed by object identity.  Every
    method is a computation over that store, so that two handles on one node
    chain (what [copy] produces) really share the nodes.  Python's [while]
    loops are recursions on a fuel counter; running out of fuel is a result of
    its own, distinct from raising and from returning. *)

From stdpp Require Import gmap list sorting strings pretty.

Local Open Scope Z_scope.

(** Object identities. *)
Abbreviation node_ref := positive (only parsing).
Abbreviation list_ref := positive (only parsing).

(** The exceptions the module raises. *)
Inductive exn := IndexError | ValueError | StopIteration.

Section linked_list.

(** [E] is the type of the items; [==] on items is decidable equality and
    [ltb] is their [<], which only [sort] uses. *)
Context {E : Type} `{!EqDecision E} (ltb : E → E → bool).

(** [@dataclass class _Node: item: Any; next: Optional[_Node] = None] *)
Record _Node := mk_Node { item : E; next : option node_ref }.

(** The two attributes [__init__] gives a [LinkedList] object. *)
Record LinkedList := mkLinkedList { _first : option node_ref; _length : Z }.

(** [LinkedListIterator] has the one attribute [_curr]. *)
Record LinkedListIterator := mkIterator { _curr : option node_ref }.

Record state := mkState {
  nodes : gmap positive _Node;
  lists : gmap positive LinkedList
}.

(** ** Computations *)

(** What running a method from a store gives: a value and the store after,
    an exception and the store at the point of the [raise], a reference to
    an object that is not in the store (Python never produces one), or
    fuel exhausted inside a loop. *)
Inductive outcome (A : Type) :=
  | Ret (a : A) (σ : state)
  | Raise (e : exn) (σ : state)
  | Dangling
  | OutOfFuel.
Arguments Ret {A} a σ.
Arguments Raise {A} e σ.
Arguments Dangling {A}.
Arguments OutOfFuel {A}.

Definition M (A : Type) : Type := state → outcome A.

Definition ret {A} (a : A) : M A := λ σ, Ret a σ.
Definition raise {A} (e : exn) : M A := λ σ, Raise e σ.
Definition bind {A B} (m : M A) (k : A → M B) : M B :=
  λ σ, match m σ with
       | Ret a σ' => k a σ'
       | Raise e σ' => Raise e σ'
       | Dangling => Dangling
       | OutOfFuel => OutOfFuel
       end.
Definition diverge {A} : M A := λ _, OutOfFuel.

Notation "'let*' x := m 'in' k" := (bind m (λ x, k))
  (at level 10, x pattern, m at level 100, k at level 200).
Notation "m ;;; k" := (bind m (λ _, k))
  (at level 100, k at level 200, right associativity).

(** Attribute reads and writes. *)
Definition get_node (c : node_ref) : M _Node :=
  λ σ, match nodes σ !! c with Some nd => Ret nd σ | None => Dangling end.
Definition get_item (c : node_ref) : M E :=
  let* nd := get_node c in ret (item nd).
Definition get_next (c : node_ref) : M (option node_ref) :=
  let* nd := get_node c in ret (next nd).
Definition set_item (c : node_ref) (x : E) : M unit :=
  let* nd := get_node c in
  λ σ, Ret tt (mkState (<[c := mk_Node x (next nd)]> (nodes σ)) (lists σ)).
Definition set_next (c : node_ref) (nx : option node_ref) : M unit :=
  let* nd := get_node c in
  λ σ, Ret tt (mkState (<[c := mk_Node (item nd) nx]> (nodes σ)) (lists σ)).

Definition get_list (self : list_ref) : M LinkedList :=
  λ σ, match lists σ !! self with Some L => Ret L σ | None => Dangling end.
Definition get_first (self : list_ref) : M (option node_ref) :=
  let* L := get_list self in ret (_first L).
Definition get_length (self : list_ref) : M Z :=
  let* L := get_list self in ret (_length L).
Definition set_first (self : list_ref) (p : option node_ref) : M unit :=
  let* L := get_list self in
  λ σ, Ret tt (mkState (nodes σ) (<[self := mkLinkedList p (_length L)]> (lists σ))).
Definition set_length (self : list_ref) (n : Z) : M unit :=
  let* L := get_list self in
  λ σ, Ret tt (mkState (nodes σ) (<[self := mkLinkedList (_first L) n]> (lists σ))).

(** Object creation: a new object gets an identity no live object has. *)
Definition new_Node (x : E) (nx : option node_ref) : M node_ref :=
  λ σ, let c := fresh (dom (nodes σ)) in
       Ret c (mkState (<[c := mk_Node x nx]> (nodes σ)) (lists σ)).
Definition new_object (L : LinkedList) : M list_ref :=
  λ σ, let r := fresh (dom (lists σ)) in
       Ret r (mkState (nodes σ) (<[r := L]> (lists σ))).

(** ** [LinkedList.append] *)

(** [while curr.next is not None: curr = curr.next], giving the last [curr]. *)
Fixpoint append_loop (fuel : nat) (curr : node_ref) : M node_ref :=
  match fuel with
  | O => diverge
  | S fuel' =>
      let* nx := get_next curr in
      match nx with
      | None => ret curr
      | Some n => append_loop fuel' n
      end
  end.

Definition append (fuel : nat) (self : list_ref) (x : E) : M unit :=
  let* new_node := new_Node x None in
  let* f := get_first self in
  match f with
  | None => set_first self (Some new_node)
  | Some curr =>
      let* last := append_loop fuel curr in
      set_next last (Some new_node)
  end ;;;
  let* n := get_length self in
  set_length self (n + 1).

(** ** [LinkedList.__init__]

    [items] is [None] or a Python sequence; [if items:] is false for both
    [None] and the empty sequence.  The sequence is a value here, so the
    [for] over it is a recursion on it. *)
Fixpoint init_loop (fuel : nat) (self : list_ref) (items : list E) : M unit :=
  match items with
  | [] => ret tt
  | x :: items' => append fuel self x ;;; init_loop fuel self items'
  end.

Definition __init__ (fuel : nat) (items : option (list E))
    (first : option node_ref) : M list_ref :=
  let* self := new_object (mkLinkedList first 0) in
  match items with
  | Some (x :: l) => init_loop fuel self (x :: l)
  | _ => ret tt
  end ;;;
  ret self.

(** ** [LinkedList.__getitem__] *)

(** [while curr is not None and curr_index != i], giving the last [curr]. *)
Fixpoint getitem_loop (fuel : nat) (curr : option node_ref) (curr_index i : Z)
    : M (option node_ref) :=
  match fuel with
  | O => diverge
  | S fuel' =>
      match curr with
      | Some c =>
          if decide (curr_index ≠ i) then
            let* nx := get_next c in
            getitem_loop fuel' nx (curr_index + 1) i
          else ret curr
      | None => ret curr
      end
  end.

(** [if i < 0: i = self._length + i], shared by the indexed methods. *)
Definition adjust (self : list_ref) (i : Z) : M Z :=
  if decide (i < 0) then let* n := get_length self in ret (n + i) else ret i.

Definition __getitem__ (fuel : nat) (self : list_ref) (i : Z) : M E :=
  let* i := adjust self i in
  let* curr := get_first self in
  let* curr := getitem_loop fuel curr 0 i in
  match curr with
  | None => raise IndexError
  | Some c => get_item c
  end.

(** ** [LinkedList.__len__] *)
Definition __len__ (self : list_ref) : M Z := get_length self.

(** ** [LinkedList.__eq__] *)
Fixpoint eq_loop (fuel : nat) (are_equal : bool) (curr1 curr2 : option node_ref)
    : M bool :=
  match fuel with
  | O => diverge
  | S fuel' =>
      match are_equal, curr1, curr2 with
      | true, Some c1, Some c2 =>
          let* x1 := get_item c1 in
          let* x2 := get_item c2 in
          let are_equal := if decide (x1 ≠ x2) then false else are_equal in
          let* n1 := get_next c1 in
          let* n2 := get_next c2 in
          eq_loop fuel' are_equal n1 n2
      | _, _, _ => ret are_equal
      end
  end.

Definition __eq__ (fuel : nat) (self other : list_ref) : M bool :=
  let* curr1 := get_first self in
  let* curr2 := get_first other in
  eq_loop fuel true curr1 curr2.

(** ** [LinkedList.insert] *)
Fixpoint insert_loop (fuel : nat) (curr : option node_ref) (curr_index i : Z)
    : M (option node_ref) :=
  match fuel with
  | O => diverge
  | S fuel' =>
      match curr with
      | Some c =>
          if decide (curr_index ≠ i - 1) then
            let* nx := get_next c in
            insert_loop fuel' nx (curr_index + 1) i
          else ret curr
      | None => ret curr
      end
  end.

Definition insert (fuel : nat) (self : list_ref) (i : Z) (x : E) : M unit :=
  let* i := adjust self i in
  if decide (i = 0) then
    let* next_node := get_first self in
    let* c := new_Node x next_node in
    set_first self (Some c) ;;;
    let* n := get_length self in
    set_length self (n + 1)
  else
    let* curr := get_first self in
    let* curr := insert_loop fuel curr 0 i in
    match curr with
    | None => raise IndexError
    | Some c =>
        let* nx := get_next c in
        let* new_node := new_Node x nx in
        set_next c (Some new_node) ;;;
        let* n := get_length self in
        set_length self (n + 1)
    end.

(** ** [LinkedList.pop] *)
Fixpoint pop_loop (fuel : nat) (self : list_ref) (curr : option node_ref)
    (curr_index i : Z) : M E :=
  match fuel with
  | O => diverge
  | S fuel' =>
      match curr with
      | None => raise IndexError
      | Some c =>
          if decide (curr_index = i - 1) then
            let* nx := get_next c in
            match nx with
            | None => raise IndexError
            | Some d =>
                let* x := get_item d in
                let* nnx := get_next d in
                set_next c nnx ;;;
                let* n := get_length self in
                set_length self (n - 1) ;;;
                ret x
            end
          else
            let* nx := get_next c in
            pop_loop fuel' self nx (curr_index + 1) i
      end
  end.

Definition pop (fuel : nat) (self : list_ref) (i : Z) : M E :=
  let* i := adjust self i in
  if decide (i = 0) then
    let* f := get_first self in
    match f with
    | Some c =>
        let* x := get_item c in
        let* nx := get_next c in
        set_first self nx ;;;
        let* n := get_length self in
        set_length self (n - 1) ;;;
        ret x
    | None => raise IndexError
    end
  else
    let* curr := get_first self in
    pop_loop fuel self curr 0 i.

(** ** [LinkedList.remove] *)
Fixpoint remove_loop (fuel : nat) (self : list_ref) (curr : option node_ref)
    (x : E) : M unit :=
  match fuel with
  | O => diverge
  | S fuel' =>
      match curr with
      | None => raise ValueError
      | Some c =>
          let* nx := get_next c in
          match nx with
          | Some d =>
              let* y := get_item d in
              if decide (y = x) then
                let* nnx := get_next d in
                set_next c nnx ;;;
                let* n := get_length self in
                set_length self (n - 1)
              else remove_loop fuel' self nx x
          | None => remove_loop fuel' self nx x
          end
      end
  end.

Definition remove (fuel : nat) (self : list_ref) (x : E) : M unit :=
  let* curr := get_first self in
  match curr with
  | None => raise ValueError
  | Some c =>
      let* y := get_item c in
      if decide (y = x) then
        let* nx := get_next c in
        set_first self nx ;;;
        let* n := get_length self in
        set_length self (n - 1)
      else remove_loop fuel self curr x
  end.

(** ** [LinkedList.__setitem__] *)

(** The [while] with its [break], giving [curr] as the loop leaves it. *)
Fixpoint setitem_loop (fuel : nat) (curr : option node_ref) (index_so_far i : Z)
    (x : E) : M (option node_ref) :=
  match fuel with
  | O => diverge
  | S fuel' =>
      match curr with
      | None => ret curr
      | Some c =>
          if decide (index_so_far = i) then set_item c x ;;; ret curr
          else
            let* nx := get_next c in
            setitem_loop fuel' nx (index_so_far + 1) i x
      end
  end.

Definition __setitem__ (fuel : nat) (self : list_ref) (i : Z) (x : E) : M unit :=
  let* i := adjust self i in
  let* curr := get_first self in
  let* curr := setitem_loop fuel curr 0 i x in
  match curr with
  | None => raise IndexError
  | Some _ => ret tt
  end.

(** ** [LinkedList.invert] *)
Fixpoint invert_loop (fuel : nat) (curr previous : option node_ref)
    : M (option node_ref) :=
  match fuel with
  | O => diverge
  | S fuel' =>
      match curr with
      | None => ret previous
      | Some c =>
          let* curr_value := get_next c in
          set_next c previous ;;;
          invert_loop fuel' curr_value (Some c)
      end
  end.

Definition invert (fuel : nat) (self : list_ref) : M unit :=
  let* curr := get_first self in
  let* previous := invert_loop fuel curr None in
  set_first self previous.

(** ** [LinkedList.to_list] *)
Fixpoint to_list_loop (fuel : nat) (curr : option node_ref)
    (items_so_far : list E) : M (list E) :=
  match fuel with
  | O => diverge
  | S fuel' =>
      match curr with
      | None => ret items_so_far
      | Some c =>
          let* x := get_item c in
          let* nx := get_next c in
          to_list_loop fuel' nx (items_so_far ++ [x])
      end
  end.

Definition to_list (fuel : nat) (self : list_ref) : M (list E) :=
  let* curr := get_first self in
  to_list_loop fuel curr [].

(** ** [LinkedList.copy]: [LinkedList(first=self._first)] *)
Definition copy (fuel : nat) (self : list_ref) : M list_ref :=
  let* f := get_first self in
  __init__ fuel None f.

(** ** The iterator *)
Definition __iter__ (self : list_ref) : M LinkedListIterator :=
  let* f := get_first self in ret (mkIterator f).

(** [__next__] gives the item together with the iterator as the call
    leaves it. *)
Definition __next__ (it : LinkedListIterator) : M (E * LinkedListIterator) :=
  match _curr it with
  | None => raise StopIteration
  | Some c =>
      let* x := get_item c in
      let* nx := get_next c in
      ret (x, mkIterator nx)
  end.

(** [for item in it: body(item)]: [__next__] until [StopIteration]. *)
Fixpoint for_each (fuel : nat) (it : LinkedListIterator) (body : E → M unit)
    : M unit :=
  match fuel with
  | O => diverge
  | S fuel' =>
      λ σ, match __next__ it σ with
           | Ret (x, it') σ' => (body x ;;; for_each fuel' it' body) σ'
           | Raise StopIteration σ' => Ret tt σ'
           | Raise e σ' => Raise e σ'
           | Dangling => Dangling
           | OutOfFuel => OutOfFuel
           end
  end.

(** ** [LinkedList.extend] and [LinkedList.__add__] *)
Definition extend (fuel : nat) (self other : list_ref) : M unit :=
  let* copy := copy fuel self in
  let* it := __iter__ other in
  for_each fuel it (λ x, append fuel copy x) ;;;
  let* f := get_first copy in
  set_first self f.

Definition __add__ (fuel : nat) (self other : list_ref) : M list_ref :=
  let* copy := copy fuel self in
  let* it := __iter__ other in
  for_each fuel it (λ x, append fuel copy x) ;;;
  ret copy.

(** ** [LinkedList.sort] *)

(** Python's built-in [list.sort] is stable and compares with [<] only; with
    [reverse=True] it sorts as if each comparison were reversed.  It is
    modelled by the stable insertion sort. *)
Fixpoint sort_insert (lt : E → E → bool) (x : E) (l : list E) : list E :=
  match l with
  | [] => [x]
  | y :: l' => if lt y x then y :: sort_insert lt x l' else x :: y :: l'
  end.

Definition list_sort (reverse : bool) (l : list E) : list E :=
  foldr (sort_insert (if reverse then flip ltb else ltb)) [] l.

Definition sort (fuel : nat) (self : list_ref) (reverse : bool) : M unit :=
  let* lst := to_list fuel self in
  let lst := list_sort reverse lst in
  let* copy := __init__ fuel (Some lst) None in
  let* f := get_first copy in
  set_first self f.

(** ** [LinkedList.__contains__] *)
Fixpoint contains_loop (fuel : nat) (curr : option node_ref) (x : E) : M bool :=
  match fuel with
  | O => diverge
  | S fuel' =>
      match curr with
      | None => ret false
      | Some c =>
          let* y := get_item c in
          if decide (y = x) then ret true
          else
            let* nx := get_next c in
            contains_loop fuel' nx x
      end
  end.

Definition __contains__ (fuel : nat) (self : list_ref) (x : E) : M bool :=
  let* curr := get_first self in
  contains_loop fuel curr x.

(** ** [LinkedList.count] *)
Fixpoint count_loop (fuel : nat) (curr : option node_ref) (x : E) (count : Z)
    : M Z :=
  match fuel with
  | O => diverge
  | S fuel' =>
      match curr with
      | None => ret count
      | Some c =>
          let* y := get_item c in
          let count := if decide (y = x) then count + 1 else count in
          let* nx := get_next c in
          count_loop fuel' nx x count
      end
  end.

Definition count (fuel : nat) (self : list_ref) (x : E) : M Z :=
  let* curr := get_first self in
  count_loop fuel curr x 0.

(** ** [LinkedList.index] *)
Fixpoint index_loop (fuel : nat) (curr : option node_ref) (x : E)
    (index_so_far : Z) : M Z :=
  match fuel with
  | O => diverge
  | S fuel' =>
      match curr with
      | None => raise ValueError
      | Some c =>
          let* y := get_item c in
          if decide (y = x) then ret index_so_far
          else
            let* nx := get_next c in
            index_loop fuel' nx x (index_so_far + 1)
      end
  end.

Definition index (fuel : nat) (self : list_ref) (x : E) : M Z :=
  let* curr := get_first self in
  index_loop fuel curr x 0.

(** ** [LinkedList.__str__]

    [str] is Python's [str] on the items.  The list comprehension
    [[str(element) for element in self]] drives the iterator of [self] until
    [StopIteration]; [' -> '.join] is [String.concat]. *)
Section stringify.

Variable str : E → string.

Fixpoint str_loop (fuel : nat) (it : LinkedListIterator) (acc : list string)
    : M (list string) :=
  match fuel with
  | O => diverge
  | S fuel' =>
      λ σ, match __next__ it σ with
           | Ret (x, it') σ' => str_loop fuel' it' (acc ++ [str x]) σ'
           | Raise StopIteration σ' => Ret acc σ'
           | Raise e σ' => Raise e σ'
           | Dangling => Dangling
           | OutOfFuel => OutOfFuel
           end
  end.

Definition __str__ (fuel : nat) (self : list_ref) : M string :=
  let* it := __iter__ self in
  let* strs := str_loop fuel it [] in
  ret ("[" +:+ String.concat " -> " strs +:+ "]")%string.

End stringify.

End linked_list.

Arguments Ret {E A} a σ.
Arguments Raise {E A} e σ.
Arguments Dangling {E A}.
Arguments OutOfFuel {E A}.

(** * The vocabulary of the statements *)

Section vocabulary.

Context {E : Type} `{!EqDecision E}.

Implicit Types (h : gmap positive (@_Node E)) (σ : @state E).
Implicit Types (p q : option node_ref) (c : node_ref).
Implicit Types (ns ms : list (node_ref * E)).

(** [seg h p ns q]: following [next] from [p] visits exactly the nodes [ns]
    (identity and item, in order) and then reaches [q]. *)
Fixpoint seg h p ns q : Prop :=
  match ns with
  | [] => p = q
  | (c, x) :: ns' =>
      p = Some c ∧ ∃ nx, h !! c = Some (mk_Node x nx) ∧ seg h nx ns' q
  end.

(** The chain of a list: the nodes reachable from its head, up to [None]. *)
Definition chain h p ns : Prop := seg h p ns None.

(** A [LinkedList] object whose head starts the chain [ns]. *)
Definition is_list σ (self : list_ref) (L : LinkedList) ns : Prop :=
  lists σ !! self = Some L ∧ chain (nodes σ) (_first L) ns.

(** The node store and the head after [append x] on a list with chain [ns]:
    the new node takes a fresh identity and the last node of [ns], when there
    is one, is made to point to it. *)
Definition append_nodes h ns (x : E) : gmap positive _Node :=
  let c := fresh (dom h) in
  match last ns with
  | None => <[c := mk_Node x None]> h
  | Some (t, y) => <[t := mk_Node y (Some c)]> (<[c := mk_Node x None]> h)
  end.

Definition append_first h p ns : option node_ref :=
  match ns with [] => Some (fresh (dom h)) | _ => p end.

Definition append_state σ self (L : LinkedList) ns (x : E) : state :=
  mkState (append_nodes (nodes σ) ns x)
    (<[self := mkLinkedList (append_first (nodes σ) (_first L) ns) (_length L + 1)]>
       (lists σ)).

(** The store after [copy] on the object [L]: one more [LinkedList] object,
    with the head of [L] and length 0. *)
Definition copy_state σ (L : LinkedList) : state :=
  mkState (nodes σ)
    (<[fresh (dom (lists σ)) := mkLinkedList (_first L) 0]> (lists σ)).

(** What the lockstep walk computes on the two item sequences. *)
Fixpoint lockstep_eq (l1 l2 : list E) : bool :=
  match l1, l2 with
  | x :: l1', y :: l2' => if decide (x ≠ y) then false else lockstep_eq l1' l2'
  | _, _ => true
  end.

(** Under the comparison [lt], [x] may stand before [y]: [y] is not less
    than [x]. *)
Definition not_after (lt : E → E → bool) (x y : E) : Prop := lt y x = false.

(** [x] and [y] compare equal: neither is less than the other. *)
Definition tied (lt : E → E → bool) (x y : E) : Prop :=
  lt x y = false ∧ lt y x = false.

(** The object [self] heads a chain and its cached length is the number of
    nodes of that chain. *)
Definition counted σ (self : list_ref) : Prop :=
  ∃ L ns, is_list σ self L ns ∧ _length L = Z.of_nat (length ns).

End vocabulary.

(** * Concrete stores

    The stores the constructor leaves when called on short sequences of
    integers from the empty store. *)

Definition empty_store : @state Z := mkState ∅ ∅.

(** After [LinkedList([1, 2, 3])]. *)
Definition store_123 : @state Z :=
  mkState
    (list_to_map [(1%positive, mk_Node 1 (Some 2%positive));
                  (2%positive, mk_Node 2 (Some 3%positive));
                  (3%positive, mk_Node 3 None)])
    (list_to_map [(1%positive, mkLinkedList (Some 1%positive) 3)]).

(** After [LinkedList([3, 1, 2])]. *)
Definition store_312 : @state Z :=
  mkState
    (list_to_map [(1%positive, mk_Node 3 (Some 2%positive));
                  (2%positive, mk_Node 1 (Some 3%positive));
                  (3%positive, mk_Node 2 None)])
    (list_to_map [(1%positive, mkLinkedList (Some 1%positive) 3)]).

(** After [LinkedList([1, 2])] and then [LinkedList([3])]. *)
Definition store_12_3 : @state Z :=
  mkState
    (list_to_map [(1%positive, mk_Node 1 (Some 2%positive));
                  (2%positive, mk_Node 2 None);
                  (3%positive, mk_Node 3 None)])
    (list_to_map [(1%positive, mkLinkedList (Some 1%positive) 2);
                  (2%positive, mkLinkedList (Some 3%positive) 1)]).

(** After [LinkedList([7])]. *)
Definition store_7 : @state Z :=
  mkState
    (list_to_map [(1%positive, mk_Node 7 None)])
    (list_to_map [(1%positive, mkLinkedList (Some 1%positive) 1)]).

(** After [L = LinkedList([3, 1, 2])] and then [L.copy()]. *)
Definition store_312_copy : @state Z :=
  mkState
    (list_to_map [(1%positive, mk_Node 3 (Some 2%positive));
                  (2%positive, mk_Node 1 (Some 3%positive));
                  (3%positive, mk_Node 2 None)])
    (list_to_map [(1%positive, mkLinkedList (Some 1%positive) 3);
                  (2%positive, mkLinkedList (Some 1%positive) 0)]).

(** * Node chains *)

Section chains.

Context {E : Type} `{!EqDecision E}.

Implicit Types (h : gmap positive (@_Node E)) (σ : @state E).
Implicit Types (p q : option node_ref) (c : node_ref).
Implicit Types (ns ms : list (node_ref * E)).

Lemma seg_app h p ns ms q :
  seg h p (ns ++ ms) q ↔ ∃ m, seg h p ns m ∧ seg h m ms q.
Proof.
  revert p. induction ns as [|[c x] ns IH]; intros p; simpl.
  - split; [eauto | intros (m & -> & H); done].
  - split.
    + intros (-> & nx & Hc & Hs). apply IH in Hs as (m & H1 & H2).
      exists m. eauto 7.
    + intros (m & (-> & nx & Hc & H1) & H2). split; [done|].
      exists nx. split; [done|]. apply IH. eauto.
Qed.

Lemma seg_frame h p ns q c nd :
  c ∉ ns.*1 → seg h p ns q → seg (<[c := nd]> h) p ns q.
Proof.
  revert p. induction ns as [|[c' x] ns IH]; intros p Hc; simpl; [done|].
  rewrite fmap_cons in Hc. apply not_elem_of_cons in Hc as [Hne Hc].
  intros (-> & nx & Hl & Hs). split; [done|]. exists nx.
  rewrite lookup_insert_ne; [|done]. eauto.
Qed.

Lemma seg_dom h p ns q c : seg h p ns q → c ∈ ns.*1 → c ∈ dom h.
Proof.
  revert p. induction ns as [|[c' x] ns IH]; intros p; simpl.
  - intros _ H. by apply elem_of_nil in H.
  - intros (-> & nx & Hl & Hs) [->|H]%elem_of_cons.
    + apply elem_of_dom. eauto.
    + eauto.
Qed.

Lemma seg_fresh h p ns q : seg h p ns q → fresh (dom h) ∉ ns.*1.
Proof. intros Hs Hin. apply (is_fresh (dom h)). by eapply seg_dom. Qed.

Lemma chain_det h p ns ms : chain h p ns → chain h p ms → ns = ms.
Proof.
  unfold chain. revert p ms.
  induction ns as [|[c x] ns IH]; intros p [|[c' y] ms]; simpl.
  - done.
  - intros -> (? & _); done.
  - intros (-> & _) ?; done.
  - intros (-> & nx & Hl & Hs) (? & nx' & Hl' & Hs'). simplify_eq.
    f_equal. eauto.
Qed.

Lemma chain_NoDup h p ns : chain h p ns → NoDup ns.*1.
Proof.
  revert p. induction ns as [|[c x] ns IH]; intros p.
  - constructor.
  - intros Hc. pose proof Hc as (-> & nx & Hl & Hs).
    rewrite fmap_cons. constructor; [|by eapply IH].
    intros (l1 & l2 & Heq)%list_elem_of_split.
    apply fmap_app_inv in Heq as (n1 & n2' & -> & Hn2 & ->).
    destruct n2' as [|[c' y] n2]; simplify_eq/=.
    apply seg_app in Hs as (m & _ & Htl).
    pose proof Htl as (-> & _).
    assert (Hlen := f_equal length (chain_det _ _ _ _ Hc Htl)).
    simpl in Hlen. rewrite length_app in Hlen. simpl in Hlen. lia.
Qed.

(** The node at position [k] of a chain, and where its [next] leads. *)
Lemma chain_lookup h p ns k c x :
  chain h p ns → ns !! k = Some (c, x) →
  h !! c = Some (mk_Node x (fst <$> ns !! S k)).
Proof.
  unfold chain. revert p k.
  induction ns as [|[c' y] ns IH]; intros p k; simpl; [done|].
  intros (-> & nx & Hl & Hs). destruct k as [|k]; simpl.
  - intros [= -> ->]. rewrite Hl. do 2 f_equal.
    destruct ns as [|[c2 x2] ns]; simpl in *; [done|]. by destruct Hs.
  - eauto.
Qed.

Lemma chain_head h p ns : chain h p ns → p = fst <$> ns !! 0%nat.
Proof. destruct ns as [|[c x] ns]; simpl; [done|]. by intros (-> & _). Qed.

(** ** Running the attribute accesses *)

Lemma get_node_Ret σ c nd : nodes σ !! c = Some nd → get_node c σ = Ret nd σ.
Proof. unfold get_node. by intros ->. Qed.

Lemma get_list_Ret σ self L : lists σ !! self = Some L → get_list self σ = Ret L σ.
Proof. unfold get_list. by intros ->. Qed.

Lemma bind_Ret {A B} (m : M A) (k : A → M B) σ a σ' :
  m σ = Ret a σ' → bind m k σ = k a σ'.
Proof. unfold bind. by intros ->. Qed.

Lemma bind_OutOfFuel {A B} (m : M A) (k : A → M B) σ :
  m σ = OutOfFuel → bind m k σ = OutOfFuel.
Proof. unfold bind. by intros ->. Qed.

Lemma get_item_Ret σ c x nx :
  nodes σ !! c = Some (mk_Node x nx) → get_item c σ = Ret x σ.
Proof. intros H. unfold get_item. by rewrite (bind_Ret _ _ _ _ _ (get_node_Ret _ _ _ H)). Qed.

Lemma get_next_Ret σ c x nx :
  nodes σ !! c = Some (mk_Node x nx) → get_next c σ = Ret nx σ.
Proof. intros H. unfold get_next. by rewrite (bind_Ret _ _ _ _ _ (get_node_Ret _ _ _ H)). Qed.

Lemma set_next_Ret σ c x nx nx' :
  nodes σ !! c = Some (mk_Node x nx) →
  set_next c nx' σ = Ret tt (mkState (<[c := mk_Node x nx']> (nodes σ)) (lists σ)).
Proof. intros H. unfold set_next. by rewrite (bind_Ret _ _ _ _ _ (get_node_Ret _ _ _ H)). Qed.

Lemma get_first_Ret σ self L :
  lists σ !! self = Some L → get_first self σ = Ret (_first L) σ.
Proof. intros H. unfold get_first. by rewrite (bind_Ret _ _ _ _ _ (get_list_Ret _ _ _ H)). Qed.

Lemma get_length_Ret σ self L :
  lists σ !! self = Some L → get_length self σ = Ret (_length L) σ.
Proof. intros H. unfold get_length. by rewrite (bind_Ret _ _ _ _ _ (get_list_Ret _ _ _ H)). Qed.

Lemma set_first_Ret σ self L p :
  lists σ !! self = Some L →
  set_first self p σ
  = Ret tt (mkState (nodes σ) (<[self := mkLinkedList p (_length L)]> (lists σ))).
Proof. intros H. unfold set_first. by rewrite (bind_Ret _ _ _ _ _ (get_list_Ret _ _ _ H)). Qed.

Lemma set_length_Ret σ self L n :
  lists σ !! self = Some L →
  set_length self n σ
  = Ret tt (mkState (nodes σ) (<[self := mkLinkedList (_first L) n]> (lists σ))).
Proof. intros H. unfold set_length. by rewrite (bind_Ret _ _ _ _ _ (get_list_Ret _ _ _ H)). Qed.

Lemma new_Node_Ret σ x nx :
  new_Node x nx σ
  = Ret (fresh (dom (nodes σ)))
      (mkState (<[fresh (dom (nodes σ)) := mk_Node x nx]> (nodes σ)) (lists σ)).
Proof. done. Qed.

Lemma new_object_Ret σ (L : LinkedList) :
  new_object L σ
  = Ret (fresh (dom (lists σ)))
      (mkState (nodes σ) (<[fresh (dom (lists σ)) := L]> (lists σ))).
Proof. done. Qed.

(** One step of a computation whose first action is known. *)
Ltac mstep H := rewrite (bind_Ret _ _ _ _ _ H); cbn beta iota.

(** ** [to_list] reads the chain *)

Lemma to_list_loop_spec fuel σ p ns acc :
  chain (nodes σ) p ns → (length ns < fuel)%nat →
  to_list_loop fuel p acc σ = Ret (acc ++ ns.*2) σ.
Proof.
  unfold chain. revert p ns acc.
  induction fuel as [|fuel IH]; intros p ns acc Hc Hf; [lia|].
  destruct ns as [|[c x] ns]; simpl in *.
  - subst p. by rewrite app_nil_r.
  - destruct Hc as (-> & nx & Hl & Hs).
    mstep (get_item_Ret _ _ _ _ Hl). mstep (get_next_Ret _ _ _ _ Hl).
    rewrite (IH nx ns); [|done|lia]. by rewrite <- app_assoc.
Qed.

Lemma to_list_spec fuel σ self L ns :
  is_list σ self L ns → (length ns < fuel)%nat →
  to_list fuel self σ = Ret ns.*2 σ.
Proof.
  intros [HL Hc] Hf. unfold to_list. mstep (get_first_Ret _ _ _ HL).
  by rewrite (to_list_loop_spec _ _ _ ns).
Qed.

(** ** [append] *)

Lemma append_loop_run fuel σ c ns t y :
  chain (nodes σ) (Some c) (ns ++ [(t, y)]) →
  append_loop fuel c σ
  = if decide (length ns < fuel)%nat then Ret t σ else OutOfFuel.
Proof.
  unfold chain. revert c ns.
  induction fuel as [|fuel IH]; intros c ns Hc; simpl.
  - done.
  - destruct ns as [|[c' x] ns]; simpl in Hc.
    + destruct Hc as ([= <-] & nx & Hl & ->).
      mstep (get_next_Ret _ _ _ _ Hl). rewrite decide_True; [done|simpl; lia].
    + destruct Hc as ([= <-] & nx & Hl & Hs).
      mstep (get_next_Ret _ _ _ _ Hl).
      assert (∃ n, nx = Some n) as [n ->].
      { destruct ns as [|[??] ?]; simpl in Hs; destruct Hs as [-> _]; eauto. }
      rewrite (IH n ns Hs). simpl. repeat case_decide; done || lia.
Qed.

Lemma append_run fuel σ self L ns x :
  is_list σ self L ns →
  append fuel self x σ
  = if decide (length ns ≤ fuel)%nat then Ret tt (append_state σ self L ns x)
    else OutOfFuel.
Proof.
  intros [HL Hc]. unfold append.
  mstep (new_Node_Ret σ x None).
  set (d := fresh (dom (nodes σ))).
  set (σ1 := mkState _ _).
  assert (HL1 : lists σ1 !! self = Some L) by done.
  mstep (get_first_Ret _ _ _ HL1).
  destruct ns as [|n0 ns0 _] using rev_ind.
  - rewrite (chain_head _ _ _ Hc). simpl.
    mstep (set_first_Ret _ _ _ (Some d) HL1).
    set (σ2 := mkState _ _).
    assert (HL2 : lists σ2 !! self = Some (mkLinkedList (Some d) (_length L))).
    { simpl. by rewrite lookup_insert_eq. }
    mstep (get_length_Ret _ _ _ HL2). rewrite (set_length_Ret _ _ _ _ HL2).
    f_equal. unfold append_state, σ2, σ1; simpl. by rewrite insert_insert_eq.
  - destruct n0 as [t y].
    assert (∃ c0, _first L = Some c0) as [c0 Hc0].
    { rewrite (chain_head _ _ _ Hc).
      destruct ns0 as [|[??] ?]; simpl; eauto. }
    rewrite Hc0 in Hc |- *.
    assert (Hc1 : chain (nodes σ1) (Some c0) (ns0 ++ [(t, y)])).
    { apply seg_frame; [|done]. by eapply seg_fresh. }
    assert (Ht : nodes σ1 !! t = Some (mk_Node y None)).
    { apply seg_app in Hc1 as (m & _ & (-> & nx & Hl & ->)). done. }
    unfold bind at 1 2. rewrite (append_loop_run _ _ _ _ _ _ Hc1).
    rewrite length_app, Nat.add_1_r.
    destruct (decide (length ns0 < fuel)%nat) as [Hlt|Hge].
    + rewrite decide_True; [|lia].
      rewrite (set_next_Ret _ _ _ _ (Some d) Ht).
      set (σ2 := mkState _ _).
      assert (HL2 : lists σ2 !! self = Some L) by done.
      mstep (get_length_Ret _ _ _ HL2). rewrite (set_length_Ret _ _ _ _ HL2).
      f_equal. unfold append_state, append_nodes, append_first.
      rewrite last_snoc. destruct ns0; done.
    + rewrite decide_False; [done|lia].
Qed.

Lemma append_nodes_chain h p ns x :
  chain h p ns →
  chain (append_nodes h ns x) (append_first h p ns) (ns ++ [(fresh (dom h), x)]).
Proof.
  intros Hc. unfold append_nodes, append_first.
  set (d := fresh (dom h)).
  destruct ns as [|[t y] ns0 _] using rev_ind.
  - simpl. split; [done|]. exists None. by rewrite lookup_insert_eq.
  - rewrite last_snoc.
    assert (Hd : d ∉ (ns0 ++ [(t, y)]).*1) by by eapply seg_fresh.
    pose proof (chain_NoDup _ _ _ Hc) as Hnd.
    rewrite fmap_app in Hd, Hnd. simpl in Hd, Hnd.
    apply NoDup_app in Hnd as (_ & Ht & _).
    apply not_elem_of_app in Hd as [Hd1 Hd2].
    apply seg_app in Hc as (m & Hs & (-> & nx & Hl & ->)).
    assert (p = match ns0 ++ [(t, y)] with [] => Some d | _ => p end) as <-
      by by destruct ns0.
    rewrite <- app_assoc. apply seg_app. exists (Some t). split.
    + apply seg_frame; [|by apply seg_frame].
      intros Hin. eapply Ht; [done|]. apply list_elem_of_singleton. done.
    + simpl. split; [done|]. exists (Some d).
      rewrite lookup_insert_eq. split; [done|]. split; [done|].
      exists None. split; [|done].
      rewrite lookup_insert_ne, lookup_insert_eq; [done|].
      intros ->. apply Hd2, list_elem_of_singleton. done.
Qed.

(** [append] leaves alone every chain segment that stays clear of the last
    node of the list appended to. *)
Lemma append_nodes_frame h p ns x q fs r :
  chain h p ns → seg h q fs r → fs.*1 ## ns.*1 →
  seg (append_nodes h ns x) q fs r.
Proof.
  intros Hc Hs Hdisj. unfold append_nodes.
  assert (Hd : fresh (dom h) ∉ fs.*1) by by eapply seg_fresh.
  destruct (last ns) as [[t y]|] eqn:Hlast.
  - apply seg_frame; [|by apply seg_frame].
    intros Hin. apply (Hdisj t); [done|].
    apply last_Some in Hlast as [l' ->]. rewrite fmap_app.
    apply elem_of_app. right. apply list_elem_of_singleton. done.
  - by apply seg_frame.
Qed.

Lemma append_is_list σ self L ns x :
  is_list σ self L ns →
  is_list (append_state σ self L ns x) self
    (mkLinkedList (append_first (nodes σ) (_first L) ns) (_length L + 1))
    (ns ++ [(fresh (dom (nodes σ)), x)]).
Proof.
  intros [HL Hc]. split; simpl.
  - by rewrite lookup_insert_eq.
  - by apply append_nodes_chain.
Qed.

(** ** [copy] and the iterator *)

Lemma copy_run fuel σ self L :
  lists σ !! self = Some L →
  copy fuel self σ = Ret (fresh (dom (lists σ))) (copy_state σ L).
Proof.
  intros HL. unfold copy. mstep (get_first_Ret _ _ _ HL).
  unfold __init__. by mstep (new_object_Ret σ (mkLinkedList (_first L) 0)).
Qed.

Lemma lookup_fresh_ne σ self (L : LinkedList) :
  lists σ !! self = Some L → fresh (dom (lists σ)) ≠ self.
Proof.
  intros HL Heq. apply (is_fresh (dom (lists σ))). rewrite Heq.
  apply elem_of_dom. eauto.
Qed.

Lemma next_run σ c x nx :
  nodes σ !! c = Some (mk_Node x nx) →
  __next__ (mkIterator (Some c)) σ = Ret (x, mkIterator nx) σ.
Proof.
  intros Hl. unfold __next__. simpl.
  mstep (get_item_Ret _ _ _ _ Hl). by mstep (get_next_Ret _ _ _ _ Hl).
Qed.

(** ** The loop of [extend] and [__add__]

    [for item in other: copy.append(item)], when the nodes still to be
    visited are none of the nodes of [copy]. *)
Lemma extend_loop_spec k copy ms : ∀ fuel σ Lc ns cur,
  is_list σ copy Lc ns → chain (nodes σ) cur ms → ms.*1 ## ns.*1 →
  (length ms < fuel)%nat → (length ns + length ms ≤ k)%nat →
  ∃ σ' Lc' added,
    for_each fuel (mkIterator cur) (λ x, append k copy x) σ = Ret tt σ'
    ∧ lists σ' = <[copy := Lc']> (lists σ)
    ∧ chain (nodes σ') (_first Lc') (ns ++ added)
    ∧ added.*2 = ms.*2
    ∧ _length Lc' = _length Lc + Z.of_nat (length ms)
    ∧ (∀ q fs r, seg (nodes σ) q fs r → fs.*1 ## ns.*1 → seg (nodes σ') q fs r).
Proof.
  induction ms as [|[c x] ms IH]; intros fuel σ Lc ns cur HL Hc Hdisj Hf Hk.
  - destruct fuel as [|fuel]; [simpl in Hf; lia|].
    unfold chain in Hc. simpl in Hc. subst cur. exists σ, Lc, []. simpl.
    destruct HL as [HL HcL]. rewrite app_nil_r, insert_id by done.
    repeat split; try done. lia.
  - destruct fuel as [|fuel]; [simpl in Hf; lia|].
    destruct Hc as (-> & nx & Hl & Hs). simpl in Hf, Hk.
    assert (Hdisj' : ms.*1 ## ns.*1).
    { intros a Ha. apply Hdisj. rewrite fmap_cons. by right. }
    cbn [for_each]. rewrite (next_run _ _ _ _ Hl).
    unfold bind at 1. rewrite (append_run k σ copy Lc ns x HL).
    rewrite decide_True by lia.
    pose proof (append_is_list _ _ _ _ x HL) as HL1.
    set (σ1 := append_state σ copy Lc ns x) in *.
    set (d := fresh (dom (nodes σ))) in *.
    destruct HL as [HL HcL].
    assert (Hs1 : chain (nodes σ1) nx ms)
      by (by eapply append_nodes_frame).
    assert (Hdisj1 : ms.*1 ## (ns ++ [(d, x)]).*1).
    { rewrite fmap_app. intros a Ha [Hb|Hb%list_elem_of_singleton]%elem_of_app.
      - by eapply Hdisj'.
      - simpl in Hb. subst a. by eapply (seg_fresh (nodes σ)). }
    destruct (IH fuel σ1 _ _ nx HL1 Hs1 Hdisj1) as
      (σ' & Lc' & added & Hrun & Hlists & Hch & Hitems & Hlen & Hframe).
    { lia. } { rewrite length_app. simpl. lia. }
    exists σ', Lc', ((d, x) :: added). split; [done|].
    split; [by rewrite Hlists; simpl; rewrite insert_insert_eq|].
    split; [by rewrite <- app_assoc in Hch|].
    split; [by simpl; f_equal|].
    split; [simpl in Hlen; rewrite Hlen; simpl; lia|].
    intros q fs r Hfs Hd. apply Hframe.
    + by eapply append_nodes_frame.
    + rewrite fmap_app. intros a Ha [Hb|Hb%list_elem_of_singleton]%elem_of_app.
      * by eapply Hd.
      * simpl in Hb. subst a. by eapply (seg_fresh (nodes σ)).
Qed.

(** The same loop when the iterator walks the chain that is being appended
    to and is not at its last node: the chain grows by one node each round
    and the iterator never catches up. *)
Lemma extend_loop_self k copy : ∀ fuel σ Lc ns i c x,
  is_list σ copy Lc ns → ns !! i = Some (c, x) → (S i < length ns)%nat →
  for_each fuel (mkIterator (Some c)) (λ x, append k copy x) σ = OutOfFuel.
Proof.
  induction fuel as [|fuel IH]; intros σ Lc ns i c x HL Hi Hlen; [done|].
  pose proof HL as [_ HcL].
  pose proof (chain_lookup _ _ _ _ _ _ HcL Hi) as Hl.
  destruct (lookup_lt_is_Some_2 ns (S i) Hlen) as [[c' x'] Hi'].
  rewrite Hi' in Hl. simpl in Hl.
  cbn [for_each]. rewrite (next_run _ _ _ _ Hl).
  unfold bind at 1. rewrite (append_run k σ copy Lc ns x HL).
  case_decide; [|done].
  eapply (IH _ _ _ (S i)).
  - by apply append_is_list.
  - by apply lookup_app_l_Some.
  - rewrite length_app. simpl. lia.
Qed.

Lemma iter_run σ self L :
  lists σ !! self = Some L → __iter__ self σ = Ret (mkIterator (_first L)) σ.
Proof. intros HL. unfold __iter__. by mstep (get_first_Ret _ _ _ HL). Qed.

Lemma disjoint_flip (l k : list positive) : l ## k → k ## l.
Proof. intros H a Ha Hb. by apply (H a). Qed.

Lemma fmap_snd_length ns ms : ns.*2 = ms.*2 → length ns = length ms.
Proof. intros H. apply (f_equal length) in H. by rewrite !length_fmap in H. Qed.

(** What [extend] leaves: [self] keeps its cached length and heads the old
    chain followed by new nodes carrying the items of [other]. *)
Lemma extend_spec fuel σ self other L Mo ns ms :
  is_list σ self L ns → is_list σ other Mo ms → ns.*1 ## ms.*1 →
  (length ns + length ms < fuel)%nat →
  ∃ σ' p' added Mo',
    extend fuel self other σ = Ret tt σ'
    ∧ is_list σ' self (mkLinkedList p' (_length L)) (ns ++ added)
    ∧ added.*2 = ms.*2
    ∧ is_list σ' other Mo' ms.
Proof.
  intros [HL HcL] [HM HcM] Hdisj Hf. unfold extend.
  mstep (copy_run fuel σ self L HL).
  set (r := fresh (dom (lists σ))). set (σc := copy_state σ L).
  assert (Hrs : r ≠ self) by by eapply lookup_fresh_ne.
  assert (Hro : r ≠ other) by by eapply lookup_fresh_ne.
  assert (HMc : lists σc !! other = Some Mo)
    by (simpl; by rewrite lookup_insert_ne).
  mstep (iter_run _ _ _ HMc).
  assert (HLc : is_list σc r (mkLinkedList (_first L) 0) ns).
  { split; [simpl; by rewrite lookup_insert_eq|done]. }
  destruct (extend_loop_spec fuel r ms fuel σc _ ns (_first Mo) HLc)
    as (σ' & Lc' & added & Hrun & Hlists & Hch & Hitems & Hlen & Hframe);
    [done|by apply disjoint_flip|lia|lia|].
  mstep Hrun.
  assert (Hr' : lists σ' !! r = Some Lc') by by rewrite Hlists, lookup_insert_eq.
  assert (Hs' : lists σ' !! self = Some L).
  { rewrite Hlists, lookup_insert_ne by done. simpl. by rewrite lookup_insert_ne. }
  mstep (get_first_Ret _ _ _ Hr'). rewrite (set_first_Ret _ _ _ _ Hs').
  eexists _, (_first Lc'), added,
    (if decide (other = self) then mkLinkedList (_first Lc') (_length L) else Mo).
  split; [done|]. split; [|split; [done|]].
  - split; simpl; [by rewrite lookup_insert_eq|done].
  - destruct (decide (other = self)) as [->|Hne].
    + assert (ns = ms) as <- by (eapply chain_det; [done|]; by simplify_eq).
      assert (ns = []) as ->.
      { destruct ns as [|[c x] ns]; [done|]. exfalso.
        apply (Hdisj c); rewrite fmap_cons; by left. }
      destruct added; [|done].
      split; simpl; [by rewrite lookup_insert_eq|done].
    + split; simpl.
      * rewrite lookup_insert_ne by done. rewrite Hlists, lookup_insert_ne by done.
        done.
      * apply Hframe; [done|by apply disjoint_flip].
Qed.

(** What [__add__] leaves: the returned object is new and heads the old chain
    of [self] followed by new nodes carrying the items of [other]; the object
    [self] is as it was, but its last node is now linked to the new nodes. *)
Lemma add_spec fuel σ self other L Mo ns ms :
  is_list σ self L ns → is_list σ other Mo ms → ns.*1 ## ms.*1 →
  (length ns + length ms < fuel)%nat →
  ∃ σ' r Lr added,
    __add__ fuel self other σ = Ret r σ'
    ∧ r ≠ self
    ∧ is_list σ' r Lr (ns ++ added)
    ∧ added.*2 = ms.*2
    ∧ _length Lr = Z.of_nat (length ms)
    ∧ lists σ' !! self = Some L
    ∧ is_list σ' other Mo ms
    ∧ (ns ≠ [] → _first Lr = _first L).
Proof.
  intros [HL HcL] [HM HcM] Hdisj Hf. unfold __add__.
  mstep (copy_run fuel σ self L HL).
  set (r := fresh (dom (lists σ))). set (σc := copy_state σ L).
  assert (Hrs : r ≠ self) by by eapply lookup_fresh_ne.
  assert (Hro : r ≠ other) by by eapply lookup_fresh_ne.
  assert (HMc : lists σc !! other = Some Mo)
    by (simpl; by rewrite lookup_insert_ne).
  mstep (iter_run _ _ _ HMc).
  assert (HLc : is_list σc r (mkLinkedList (_first L) 0) ns).
  { split; [simpl; by rewrite lookup_insert_eq|done]. }
  destruct (extend_loop_spec fuel r ms fuel σc _ ns (_first Mo) HLc)
    as (σ' & Lc' & added & Hrun & Hlists & Hch & Hitems & Hlen & Hframe);
    [done|by apply disjoint_flip|lia|lia|].
  mstep Hrun. exists σ', r, Lc', added.
  split; [done|]. split; [done|].
  split; [split; [by rewrite Hlists, lookup_insert_eq|done]|].
  split; [done|]. split; [simpl in Hlen; lia|].
  split; [rewrite Hlists, lookup_insert_ne by done; simpl;
          by rewrite lookup_insert_ne|].
  split.
  - split; [|apply Hframe; [done|by apply disjoint_flip]].
    rewrite Hlists, lookup_insert_ne by done. simpl. by rewrite lookup_insert_ne.
  - intros Hne. rewrite (chain_head _ _ _ HcL), (chain_head _ _ _ Hch).
    destruct ns; done.
Qed.

(** ** [__getitem__] *)

Lemma getitem_loop_spec fuel σ p ns j i :
  chain (nodes σ) p ns → (length ns < fuel)%nat →
  getitem_loop fuel p j i σ
  = Ret (if decide (j ≤ i) then fst <$> ns !! Z.to_nat (i - j) else None) σ.
Proof.
  unfold chain. revert p ns j.
  induction fuel as [|fuel IH]; intros p ns j Hc Hf; [lia|].
  destruct ns as [|[c x] ns]; simpl in Hc.
  - subst p. simpl. by case_decide.
  - destruct Hc as (-> & nx & Hl & Hs). cbn [getitem_loop].
    destruct (decide (j ≠ i)) as [Hne|Heq].
    + mstep (get_next_Ret _ _ _ _ Hl). rewrite (IH nx ns); [|done|simpl in Hf; lia].
      f_equal. destruct (decide (j + 1 ≤ i)).
      * rewrite decide_True by lia.
        replace (Z.to_nat (i - j)) with (S (Z.to_nat (i - (j + 1)))) by lia. done.
      * rewrite decide_False by lia. done.
    + assert (j = i) as -> by lia. rewrite decide_True by lia.
      by rewrite Z.sub_diag.
Qed.

Lemma adjust_run σ self L i :
  lists σ !! self = Some L →
  adjust self i σ = Ret (if decide (i < 0) then _length L + i else i) σ.
Proof.
  intros HL. unfold adjust. case_decide; [|done].
  by mstep (get_length_Ret _ _ _ HL).
Qed.

Lemma getitem_run fuel σ self L ns i :
  is_list σ self L ns → (length ns < fuel)%nat →
  let j := if decide (i < 0) then _length L + i else i in
  __getitem__ fuel self i σ
  = match (if decide (0 ≤ j) then ns !! Z.to_nat j else None) with
    | Some (c, x) => Ret x σ
    | None => Raise IndexError σ
    end.
Proof.
  intros [HL Hc] Hf j. unfold __getitem__.
  mstep (adjust_run _ _ _ i HL). fold j.
  mstep (get_first_Ret _ _ _ HL).
  mstep (getitem_loop_spec _ _ _ _ 0 j Hc Hf).
  rewrite Z.sub_0_r. case_decide; [|done].
  destruct (ns !! Z.to_nat j) as [[c x]|] eqn:Hj; [|done]. simpl.
  pose proof (chain_lookup _ _ _ _ _ _ Hc Hj) as Hl.
  by rewrite (get_item_Ret _ _ _ _ Hl).
Qed.

(** ** [__eq__] *)

Lemma eq_loop_spec fuel σ p1 p2 ns ms :
  chain (nodes σ) p1 ns → chain (nodes σ) p2 ms →
  (length ns `min` length ms < fuel)%nat →
  eq_loop fuel true p1 p2 σ = Ret (lockstep_eq ns.*2 ms.*2) σ.
Proof.
  unfold chain. revert p1 p2 ns ms.
  induction fuel as [|fuel IH]; intros p1 p2 ns ms H1 H2 Hf; [lia|].
  destruct ns as [|[c1 x1] ns]; simpl in H1.
  { subst p1. done. }
  destruct H1 as (-> & n1 & Hl1 & Hs1).
  destruct ms as [|[c2 x2] ms]; simpl in H2.
  { subst p2. done. }
  destruct H2 as (-> & n2 & Hl2 & Hs2). simpl in Hf.
  cbn [eq_loop].
  mstep (get_item_Ret _ _ _ _ Hl1). mstep (get_item_Ret _ _ _ _ Hl2).
  mstep (get_next_Ret _ _ _ _ Hl1). mstep (get_next_Ret _ _ _ _ Hl2).
  simpl. destruct (decide (x1 ≠ x2)).
  - destruct fuel; [lia|]. done.
  - apply IH; [done|done|lia].
Qed.

Lemma lockstep_eq_false (l1 l2 : list E) :
  lockstep_eq l1 l2 = false ↔
  ∃ (i : nat) x y, l1 !! i = Some x ∧ l2 !! i = Some y ∧ x ≠ y.
Proof.
  revert l2. induction l1 as [|x l1 IH]; intros [|y l2]; simpl.
  - split; [done|]. by intros (i & ? & ? & ? & _).
  - split; [done|]. by intros (i & ? & ? & ? & _).
  - split; [done|]. by intros (i & ? & ? & _ & ? & _).
  - destruct (decide (x ≠ y)) as [Hne|Heq].
    + split; [|done]. intros _. by exists 0%nat, x, y.
    + rewrite IH. split.
      * intros (i & a & b & ? & ? & ?). by exists (S i), a, b.
      * intros ([|i] & a & b & Ha & Hb & Hab); simplify_eq/=; [done|].
        by exists i, a, b.
Qed.

Lemma lockstep_eq_prefix (l1 l2 : list E) :
  l1 `prefix_of` l2 ∨ l2 `prefix_of` l1 → lockstep_eq l1 l2 = true.
Proof.
  intros Hp. destruct (lockstep_eq l1 l2) eqn:Hb; [done|].
  apply lockstep_eq_false in Hb as (i & x & y & H1 & H2 & Hne).
  destruct Hp as [[k ->]|[k ->]].
  - rewrite (lookup_app_l_Some _ _ _ _ H1) in H2. congruence.
  - rewrite (lookup_app_l_Some _ _ _ _ H2) in H1. congruence.
Qed.

(** ** [remove] *)

(** The scan finds nothing: once past the head, no node holds [x]. *)
Lemma remove_loop_absent self x fuel : ∀ σ p ns,
  chain (nodes σ) p ns → x ∉ (tail ns).*2 → (length ns < fuel)%nat →
  remove_loop fuel self p x σ = Raise ValueError σ.
Proof.
  unfold chain.
  induction fuel as [|fuel IH]; intros σ p ns Hc Hx Hf; [lia|].
  destruct ns as [|[c y] ns]; simpl in Hc.
  { subst p. done. }
  destruct Hc as (-> & nx & Hl & Hs). simpl in Hx, Hf. cbn [remove_loop].
  mstep (get_next_Ret _ _ _ _ Hl).
  destruct ns as [|[d y'] ns]; simpl in Hs.
  - subst nx. apply (IH _ _ []); [done|apply not_elem_of_nil|simpl; lia].
  - pose proof Hs as (-> & nnx & Hd & Hs').
    rewrite fmap_cons in Hx. apply not_elem_of_cons in Hx as [Hne Hx].
    mstep (get_item_Ret _ _ _ _ Hd). rewrite decide_False by done.
    apply (IH _ _ ((d, y') :: ns)); [done|done|simpl in Hf |- *; lia].
Qed.

(** The scan finds [x] in the node after [l1]: that node is unlinked. *)
Lemma remove_loop_present self x L d l2 fuel : ∀ σ c y l1,
  lists σ !! self = Some L →
  chain (nodes σ) (Some c) ((c, y) :: l1 ++ (d, x) :: l2) →
  x ∉ l1.*2 → (length l1 < fuel)%nat →
  ∃ σ',
    remove_loop fuel self (Some c) x σ = Ret tt σ'
    ∧ lists σ' = <[self := mkLinkedList (_first L) (_length L - 1)]> (lists σ)
    ∧ chain (nodes σ') (Some c) ((c, y) :: l1 ++ l2)
    ∧ (∀ a, a ∉ ((c, y) :: l1).*1 → nodes σ' !! a = nodes σ !! a).
Proof.
  induction fuel as [|fuel IH]; intros σ c y l1 HL Hc Hx Hf; [lia|].
  pose proof (chain_NoDup _ _ _ Hc) as Hnd.
  destruct Hc as (_ & nx & Hl & Hs). cbn [remove_loop].
  mstep (get_next_Ret _ _ _ _ Hl).
  rewrite fmap_cons in Hnd. apply NoDup_cons in Hnd as [Hc_notin Hnd].
  destruct l1 as [|[c' y'] l1]; simpl in Hs.
  - destruct Hs as (-> & nnx & Hd & Hs).
    mstep (get_item_Ret _ _ _ _ Hd). rewrite decide_True by done.
    mstep (get_next_Ret _ _ _ _ Hd).
    mstep (set_next_Ret _ _ _ _ nnx Hl).
    set (σ1 := mkState _ _).
    assert (HL1 : lists σ1 !! self = Some L) by done.
    mstep (get_length_Ret _ _ _ HL1). rewrite (set_length_Ret _ _ _ _ HL1).
    eexists. split; [done|]. split; [done|]. split.
    + simpl. split; [done|]. exists nnx. rewrite lookup_insert_eq.
      split; [done|]. apply seg_frame; [|done].
      simpl in Hc_notin.
      by apply not_elem_of_cons in Hc_notin as [_ ?].
    + intros a Ha. simpl. rewrite lookup_insert_ne; [done|].
      intros ->. apply Ha. simpl. by left.
  - pose proof Hs as (-> & nnx & Hd & Hs').
    rewrite fmap_cons in Hx. apply not_elem_of_cons in Hx as [Hne Hx].
    mstep (get_item_Ret _ _ _ _ Hd). rewrite decide_False by done.
    destruct (IH σ c' y' l1 HL Hs Hx) as (σ' & Hrun & Hlists & Hch & Hfr).
    { simpl in Hf. lia. }
    exists σ'. split; [done|]. split; [done|]. split.
    + split; [done|]. exists (Some c'). split; [|done].
      rewrite Hfr; [done|].
      intros Hin. apply Hc_notin. rewrite fmap_app.
      apply elem_of_app. left. done.
    + intros a Ha. apply Hfr. intros Hin. apply Ha.
      rewrite fmap_cons. by right.
Qed.

(** ** [invert] *)

Lemma invert_loop_spec fuel : ∀ σ curr previous ns rs,
  chain (nodes σ) curr ns → chain (nodes σ) previous rs →
  ns.*1 ## rs.*1 → (length ns < fuel)%nat →
  ∃ σ' p',
    invert_loop fuel curr previous σ = Ret p' σ'
    ∧ chain (nodes σ') p' (reverse ns ++ rs)
    ∧ dom (nodes σ') = dom (nodes σ)
    ∧ lists σ' = lists σ.
Proof.
  induction fuel as [|fuel IH]; intros σ curr previous ns rs Hc Hp Hd Hf; [lia|].
  destruct ns as [|[c x] ns].
  - unfold chain in Hc. simpl in Hc. subst curr. exists σ, previous. done.
  - pose proof (chain_NoDup _ _ _ Hc) as Hnd.
    rewrite fmap_cons in Hnd. apply NoDup_cons in Hnd as [Hc_notin Hnd].
    destruct Hc as (-> & nx & Hl & Hs). cbn [invert_loop].
    mstep (get_next_Ret _ _ _ _ Hl). mstep (set_next_Ret _ _ _ _ previous Hl).
    set (σ1 := mkState _ _).
    assert (Hc_rs : c ∉ rs.*1).
    { intros Hin. apply (Hd c); [rewrite fmap_cons; by left|done]. }
    destruct (IH σ1 nx (Some c) ns ((c, x) :: rs)) as (σ' & p' & Hrun & Hch & Hdom & Hli).
    + by apply seg_frame.
    + split; [done|]. exists previous. simpl. rewrite lookup_insert_eq.
      split; [done|]. by apply seg_frame.
    + intros a Ha [->|Hb]%elem_of_cons; [done|].
      apply (Hd a); [rewrite fmap_cons; by right|done].
    + simpl in Hf. lia.
    + exists σ', p'. split; [done|]. split.
      * by rewrite reverse_cons, <- app_assoc.
      * split; [|done]. rewrite Hdom. simpl.
        apply dom_insert_lookup_L. eauto.
Qed.

Lemma invert_spec fuel σ self L ns :
  is_list σ self L ns → (length ns < fuel)%nat →
  ∃ σ' p',
    invert fuel self σ = Ret tt σ'
    ∧ is_list σ' self (mkLinkedList p' (_length L)) (reverse ns)
    ∧ dom (nodes σ') = dom (nodes σ).
Proof.
  intros [HL Hc] Hf. unfold invert. mstep (get_first_Ret _ _ _ HL).
  destruct (invert_loop_spec fuel σ (_first L) None ns [] Hc)
    as (σ' & p' & Hrun & Hch & Hdom & Hli); [done|set_solver|done|].
  mstep Hrun. rewrite <- Hli in HL. rewrite (set_first_Ret _ _ _ _ HL).
  eexists _, p'. split; [done|]. split; [|done].
  split; simpl; [by rewrite lookup_insert_eq|]. by rewrite app_nil_r in Hch.
Qed.

Lemma remove_absent fuel σ self L ns x :
  is_list σ self L ns → (length ns < fuel)%nat → x ∉ ns.*2 →
  remove fuel self x σ = Raise ValueError σ.
Proof.
  intros [HL Hc] Hf Hx. unfold remove. mstep (get_first_Ret _ _ _ HL).
  destruct ns as [|[c y] ns].
  - by rewrite (chain_head _ _ _ Hc).
  - rewrite (chain_head _ _ _ Hc). simpl.
    rewrite fmap_cons in Hx. apply not_elem_of_cons in Hx as [Hne Hx].
    rewrite (chain_head _ _ _ Hc) in Hc. simpl in Hc.
    pose proof Hc as (_ & nx & Hl & Hs).
    mstep (get_item_Ret _ _ _ _ Hl). rewrite decide_False by done.
    by apply (remove_loop_absent _ _ _ _ _ ((c, y) :: ns)).
Qed.

Lemma remove_present fuel σ self L l1 d l2 x :
  is_list σ self L (l1 ++ (d, x) :: l2) → (length l1 < fuel)%nat → x ∉ l1.*2 →
  ∃ σ' p',
    remove fuel self x σ = Ret tt σ'
    ∧ is_list σ' self (mkLinkedList p' (_length L - 1)) (l1 ++ l2).
Proof.
  intros [HL Hc] Hf Hx. unfold remove. mstep (get_first_Ret _ _ _ HL).
  pose proof (chain_head _ _ _ Hc) as Hfirst.
  destruct l1 as [|[c y] l1]; simpl in Hfirst; rewrite Hfirst in Hc |- *.
  - destruct Hc as (_ & nx & Hl & Hs).
    mstep (get_item_Ret _ _ _ _ Hl). rewrite decide_True by done.
    mstep (get_next_Ret _ _ _ _ Hl). mstep (set_first_Ret _ _ _ nx HL).
    set (σ1 := mkState _ _).
    assert (HL1 : lists σ1 !! self = Some (mkLinkedList nx (_length L)))
      by (simpl; by rewrite lookup_insert_eq).
    mstep (get_length_Ret _ _ _ HL1). rewrite (set_length_Ret _ _ _ _ HL1).
    eexists _, nx. split; [done|]. split; [|done].
    simpl. by rewrite insert_insert_eq, lookup_insert_eq.
  - rewrite fmap_cons in Hx. apply not_elem_of_cons in Hx as [Hne Hx].
    pose proof Hc as (_ & nx & Hl & Hs).
    mstep (get_item_Ret _ _ _ _ Hl). rewrite decide_False by done.
    destruct (remove_loop_present self x L d l2 fuel σ c y l1 HL Hc Hx)
      as (σ' & Hrun & Hlists & Hch & _); [simpl in Hf; lia|].
    exists σ', (_first L). split; [done|]. split.
    + by rewrite Hlists, lookup_insert_eq.
    + simpl. by rewrite Hfirst.
Qed.

(** ** [__init__] *)

Lemma init_loop_spec fuel self items : ∀ σ L ns,
  is_list σ self L ns → (length ns + length items ≤ fuel)%nat →
  ∃ σ' L' added,
    init_loop fuel self items σ = Ret tt σ'
    ∧ lists σ' = <[self := L']> (lists σ)
    ∧ chain (nodes σ') (_first L') (ns ++ added)
    ∧ added.*2 = items
    ∧ _length L' = _length L + Z.of_nat (length items).
Proof.
  induction items as [|x items IH]; intros σ L ns HL Hf.
  - exists σ, L, []. destruct HL as [HL Hc]. simpl.
    rewrite app_nil_r, insert_id by done. repeat split; try done. lia.
  - simpl in Hf. cbn [init_loop]. unfold bind at 1.
    rewrite (append_run fuel σ self L ns x HL), decide_True by lia.
    pose proof (append_is_list _ _ _ _ x HL) as HL1.
    destruct (IH _ _ _ HL1) as (σ' & L' & added & Hrun & Hlists & Hch & Hit & Hlen).
    { rewrite length_app. simpl. lia. }
    exists σ', L', ((fresh (dom (nodes σ)), x) :: added).
    split; [done|]. split; [by rewrite Hlists; simpl; rewrite insert_insert_eq|].
    split; [by rewrite <- app_assoc in Hch|].
    split; [by simpl; f_equal|]. simpl in Hlen. rewrite Hlen. simpl length. lia.
Qed.

Lemma init_spec fuel σ items :
  (length items ≤ fuel)%nat →
  ∃ σ' L' added,
    __init__ fuel (Some items) None σ = Ret (fresh (dom (lists σ))) σ'
    ∧ lists σ' = <[fresh (dom (lists σ)) := L']> (lists σ)
    ∧ chain (nodes σ') (_first L') added
    ∧ added.*2 = items
    ∧ _length L' = Z.of_nat (length items).
Proof.
  intros Hf. unfold __init__.
  mstep (new_object_Ret σ (mkLinkedList None 0)).
  set (r := fresh (dom (lists σ))). set (σ1 := mkState _ _).
  assert (HL1 : is_list σ1 r (mkLinkedList None 0) []).
  { split; [simpl; by rewrite lookup_insert_eq|done]. }
  destruct (init_loop_spec fuel r items σ1 _ [] HL1)
    as (σ' & L' & added & Hrun & Hlists & Hch & Hit & Hlen); [simpl; lia|].
  exists σ', L', added.
  split; [|split; [by rewrite Hlists; simpl; rewrite insert_insert_eq|done]].
  destruct items as [|x items]; [|by mstep Hrun].
  simpl in Hrun. unfold ret in Hrun. by simplify_eq.
Qed.

(** ** [sort] *)

Section sorting.

(** The comparison the sort runs with, taken as a strict weak order: [lt]
    is asymmetric and "not less than" is transitive. *)
Variable lt : E → E → bool.
Hypothesis lt_asym : ∀ x y, lt x y = true → lt y x = false.
Hypothesis lt_negtrans : ∀ x y z, lt y x = false → lt z y = false → lt z x = false.

Lemma sort_insert_perm x l : sort_insert lt x l ≡ₚ x :: l.
Proof.
  induction l as [|y l IH]; simpl; [done|].
  destruct (lt y x); [|done]. rewrite IH. apply perm_swap.
Qed.

Lemma sort_insert_sorted x l :
  StronglySorted (not_after lt) l → StronglySorted (not_after lt) (sort_insert lt x l).
Proof.
  induction l as [|y l IH]; intros Hs; simpl.
  - repeat constructor.
  - apply StronglySorted_inv in Hs as [Hs Hall].
    destruct (lt y x) eqn:Hyx.
    + constructor; [by apply IH|].
      rewrite sort_insert_perm. constructor; [|done].
      by apply lt_asym.
    + constructor; [by constructor|]. constructor; [done|].
      eapply Forall_impl; [done|]. intros z Hz. by eapply lt_negtrans.
Qed.

Lemma sort_insert_stable k x l :
  filter (tied lt k) (sort_insert lt x l) = filter (tied lt k) (x :: l).
Proof.
  induction l as [|y l IH]; simpl; [done|].
  destruct (lt y x) eqn:Hyx; [|done].
  rewrite filter_cons, IH, !filter_cons.
  destruct (decide (tied lt k y)) as [[Hy1 Hy2]|]; [|done].
  destruct (decide (tied lt k x)) as [[Hx1 Hx2]|]; [|done].
  rewrite (lt_negtrans _ _ _ Hx1 Hy2) in Hyx. done.
Qed.

Lemma foldr_sort_insert_perm l : foldr (sort_insert lt) [] l ≡ₚ l.
Proof.
  induction l as [|x l IH]; simpl; [done|]. by rewrite sort_insert_perm, IH.
Qed.

Lemma foldr_sort_insert_sorted l :
  StronglySorted (not_after lt) (foldr (sort_insert lt) [] l).
Proof.
  induction l as [|x l IH]; simpl; [constructor|]. by apply sort_insert_sorted.
Qed.

Lemma foldr_sort_insert_stable k l :
  filter (tied lt k) (foldr (sort_insert lt) [] l) = filter (tied lt k) l.
Proof.
  induction l as [|x l IH]; simpl; [done|].
  by rewrite sort_insert_stable, !filter_cons, IH.
Qed.

End sorting.

Lemma list_sort_perm (ltb : E → E → bool) reverse (l : list E) :
  list_sort ltb reverse l ≡ₚ l.
Proof. apply foldr_sort_insert_perm. Qed.

Lemma sort_spec (ltb : E → E → bool) fuel σ self L ns reverse :
  is_list σ self L ns → (length ns < fuel)%nat →
  ∃ σ' p' added,
    sort ltb fuel self reverse σ = Ret tt σ'
    ∧ is_list σ' self (mkLinkedList p' (_length L)) added
    ∧ added.*2 = list_sort ltb reverse ns.*2.
Proof.
  intros HL Hf. unfold sort. mstep (to_list_spec _ _ _ _ _ HL Hf).
  destruct HL as [HL Hc].
  destruct (init_spec fuel σ (list_sort ltb reverse ns.*2))
    as (σ' & L' & added & Hrun & Hlists & Hch & Hit & Hlen).
  { rewrite list_sort_perm, length_fmap. lia. }
  mstep Hrun.
  assert (Hr : lists σ' !! fresh (dom (lists σ)) = Some L')
    by by rewrite Hlists, lookup_insert_eq.
  assert (Hs : lists σ' !! self = Some L).
  { rewrite Hlists, lookup_insert_ne; [done|]. by eapply lookup_fresh_ne. }
  mstep (get_first_Ret _ _ _ Hr). rewrite (set_first_Ret _ _ _ _ Hs).
  eexists _, (_first L'), added. split; [done|]. split; [|done].
  split; simpl; [by rewrite lookup_insert_eq|done].
Qed.

(** * The properties of the specification *)

(** C3.  [L.extend(M)] on lists whose chains share no node returns; from
    then on [to_list] of [L] gives the old items of [L] followed by the items
    of [M], and [to_list] of [M] gives what it gave before. *)
Theorem extend_elements fuel σ self other L Mo ns ms :
  is_list σ self L ns → is_list σ other Mo ms → ns.*1 ## ms.*1 →
  (length ns + length ms < fuel)%nat →
  to_list fuel self σ = Ret ns.*2 σ
  ∧ to_list fuel other σ = Ret ms.*2 σ
  ∧ ∃ σ', extend fuel self other σ = Ret tt σ'
      ∧ to_list fuel self σ' = Ret (ns.*2 ++ ms.*2) σ'
      ∧ to_list fuel other σ' = Ret ms.*2 σ'.
Proof.
  intros HL HM Hdisj Hf.
  split; [eapply to_list_spec; [done|lia]|].
  split; [eapply to_list_spec; [done|lia]|].
  destruct (extend_spec fuel σ self other L Mo ns ms)
    as (σ' & p' & added & Mo' & Hrun & HL' & Hit & HM'); [done..|].
  exists σ'. split; [done|]. split.
  - rewrite (to_list_spec _ _ _ _ _ HL'), fmap_app, Hit; [done|].
    rewrite length_app, (fmap_snd_length _ _ Hit). lia.
  - apply (to_list_spec _ _ _ _ _ HM'). lia.
Qed.

(** C4.  [__eq__] compares the two item sequences position by position for as
    long as both chains last: it answers true when one sequence is a prefix
    of the other (whatever the lengths), and false exactly when some position
    present in both holds different items. *)
Theorem eq_lockstep fuel σ self other L Mo ns ms :
  is_list σ self L ns → is_list σ other Mo ms →
  (length ns `min` length ms < fuel)%nat →
  ∃ b, __eq__ fuel self other σ = Ret b σ
    ∧ (ns.*2 `prefix_of` ms.*2 ∨ ms.*2 `prefix_of` ns.*2 → b = true)
    ∧ (b = false ↔
       ∃ (i : nat) x y, ns.*2 !! i = Some x ∧ ms.*2 !! i = Some y ∧ x ≠ y).
Proof.
  intros [HL HcL] [HM HcM] Hf. exists (lockstep_eq ns.*2 ms.*2). split.
  - unfold __eq__. mstep (get_first_Ret _ _ _ HL). mstep (get_first_Ret _ _ _ HM).
    by apply eq_loop_spec.
  - split; [apply lockstep_eq_prefix|apply lockstep_eq_false].
Qed.


(** C6.  [remove x] raises exactly when no node holds [x]; what it raises is
    [ValueError], leaving the whole store as it was.  When some node holds
    [x], the first such node is unlinked and the cached length goes down
    by one. *)
Theorem remove_first_value fuel σ self L ns x :
  is_list σ self L ns → (length ns < fuel)%nat →
  ((∃ e σ', remove fuel self x σ = Raise e σ') ↔ x ∉ ns.*2)
  ∧ (∀ e σ', remove fuel self x σ = Raise e σ' → e = ValueError ∧ σ' = σ)
  ∧ (x ∉ ns.*2 → remove fuel self x σ = Raise ValueError σ)
  ∧ (∀ l1 d l2, ns = l1 ++ (d, x) :: l2 → x ∉ l1.*2 →
       ∃ σ' p',
         remove fuel self x σ = Ret tt σ'
         ∧ is_list σ' self (mkLinkedList p' (_length L - 1)) (l1 ++ l2)
         ∧ to_list fuel self σ' = Ret (l1.*2 ++ l2.*2) σ'
         ∧ __len__ self σ' = Ret (_length L - 1) σ').
Proof.
  intros HL Hf.
  assert (Hpresent : ∀ l1 d l2, ns = l1 ++ (d, x) :: l2 → x ∉ l1.*2 →
    ∃ σ' p',
      remove fuel self x σ = Ret tt σ'
      ∧ is_list σ' self (mkLinkedList p' (_length L - 1)) (l1 ++ l2)
      ∧ to_list fuel self σ' = Ret (l1.*2 ++ l2.*2) σ'
      ∧ __len__ self σ' = Ret (_length L - 1) σ').
  { intros l1 d l2 -> Hx. rewrite length_app in Hf. simpl in Hf.
    destruct (remove_present fuel σ self L l1 d l2 x HL) as (σ' & p' & Hrun & HL');
      [lia|done|].
    exists σ', p'. split; [done|]. split; [done|]. split.
    - rewrite (to_list_spec _ _ _ _ _ HL'), fmap_app; [done|].
      rewrite length_app. lia.
    - destruct HL' as [HL' _]. unfold __len__.
      by rewrite (get_length_Ret _ _ _ HL'). }
  assert (Hraise : ∀ e σ', remove fuel self x σ = Raise e σ' → x ∉ ns.*2).
  { intros e σ' Hr Hin.
    apply list_elem_of_split_l in Hin as (k1 & k2 & Hsplit & Hx).
    apply fmap_app_inv in Hsplit as (l1 & l2' & -> & Hk2 & ->).
    symmetry in Hk2. apply fmap_cons_inv in Hk2 as ([d x'] & l2 & Hx' & -> & ->).
    simpl in Hx'. subst x'.
    destruct (Hpresent l1 d l2 eq_refl Hx) as (? & ? & Hrun & _). congruence. }
  split; [|split; [|split; [by eapply remove_absent|done]]].
  - split.
    + intros (e & σ' & Hr). by eapply Hraise.
    + intros Hx. exists ValueError, σ. by eapply remove_absent.
  - intros e σ' Hr. pose proof (Hraise _ _ Hr) as Hx.
    rewrite (remove_absent _ _ _ _ _ _ HL Hf Hx) in Hr. by simplify_eq.
Qed.

(** C7.  When [<] on the items is a strict weak order, [sort] returns and
    [to_list] afterwards gives the items rearranged in ascending order, or in
    descending order with [reverse], items that compare equal keeping the
    order they had; the cached length is what it was. *)
Theorem sort_ordered (ltb : E → E → bool) fuel σ self L ns (reverse : bool) :
  (∀ x y, ltb x y = true → ltb y x = false) →
  (∀ x y z, ltb y x = false → ltb z y = false → ltb z x = false) →
  is_list σ self L ns → (length ns < fuel)%nat →
  let lt := if reverse then flip ltb else ltb in
  ∃ σ' l',
    sort ltb fuel self reverse σ = Ret tt σ'
    ∧ to_list fuel self σ' = Ret l' σ'
    ∧ __len__ self σ' = Ret (_length L) σ'
    ∧ l' ≡ₚ ns.*2
    ∧ StronglySorted (not_after lt) l'
    ∧ (∀ k, filter (tied lt k) l' = filter (tied lt k) ns.*2).
Proof.
  intros Hasym Hneg HL Hf lt.
  destruct (sort_spec ltb fuel σ self L ns reverse HL Hf)
    as (σ' & p' & added & Hrun & HL' & Hit).
  assert (Hperm : added.*2 ≡ₚ ns.*2) by (rewrite Hit; apply list_sort_perm).
  assert (Hlt_asym : ∀ x y, lt x y = true → lt y x = false).
  { unfold lt. destruct reverse; unfold flip; eauto. }
  assert (Hlt_neg : ∀ x y z, lt y x = false → lt z y = false → lt z x = false).
  { unfold lt. destruct reverse; unfold flip; eauto. }
  exists σ', added.*2. split; [done|]. split.
  { apply (to_list_spec _ _ _ _ _ HL').
    apply Permutation_length in Hperm. rewrite !length_fmap in Hperm. lia. }
  split.
  { destruct HL' as [HL' _]. unfold __len__. by rewrite (get_length_Ret _ _ _ HL'). }
  split; [done|]. rewrite Hit. unfold list_sort. fold lt. split.
  - by apply foldr_sort_insert_sorted.
  - intros k. by apply foldr_sort_insert_stable.
Qed.

(** C8.  [invert] returns with the same nodes linked in the opposite order:
    no node is created, the cached length is what it was, and [to_list]
    gives the items reversed.  A second [invert] puts every node back in its
    place, so [to_list] gives the original sequence. *)
Theorem invert_twice fuel σ self L ns :
  is_list σ self L ns → (length ns < fuel)%nat →
  ∃ σ1 σ2 p1 p2,
    invert fuel self σ = Ret tt σ1
    ∧ is_list σ1 self (mkLinkedList p1 (_length L)) (reverse ns)
    ∧ dom (nodes σ1) = dom (nodes σ)
    ∧ to_list fuel self σ1 = Ret (reverse ns.*2) σ1
    ∧ __len__ self σ1 = Ret (_length L) σ1
    ∧ invert fuel self σ1 = Ret tt σ2
    ∧ is_list σ2 self (mkLinkedList p2 (_length L)) ns
    ∧ to_list fuel self σ2 = Ret ns.*2 σ2.
Proof.
  intros HL Hf.
  destruct (invert_spec fuel σ self L ns HL Hf) as (σ1 & p1 & Hrun1 & HL1 & Hdom1).
  destruct (invert_spec fuel σ1 self _ _ HL1) as (σ2 & p2 & Hrun2 & HL2 & Hdom2).
  { by rewrite length_reverse. }
  rewrite reverse_involutive in HL2. simpl in HL2.
  exists σ1, σ2, p1, p2. split; [done|]. split; [done|]. split; [done|].
  split.
  { rewrite (to_list_spec _ _ _ _ _ HL1), fmap_reverse; [done|].
    by rewrite length_reverse. }
  split.
  { destruct HL1 as [HL1 _]. unfold __len__. by rewrite (get_length_Ret _ _ _ HL1). }
  split; [done|]. split; [done|]. by apply (to_list_spec _ _ _ _ _ HL2).
Qed.

(** C9.  [copy] returns a new [LinkedList] object whose head is the head
    node of the original and whose cached length is 0, however many nodes
    the chain they now share has. *)
Theorem copy_length_zero fuel σ self L ns :
  is_list σ self L ns →
  ∃ r σ',
    copy fuel self σ = Ret r σ'
    ∧ r ≠ self
    ∧ __len__ r σ' = Ret 0 σ'
    ∧ get_first r σ' = Ret (_first L) σ'
    ∧ get_first self σ' = Ret (_first L) σ'
    ∧ is_list σ' r (mkLinkedList (_first L) 0) ns
    ∧ is_list σ' self L ns.
Proof.
  intros [HL Hc]. exists (fresh (dom (lists σ))), (copy_state σ L).
  assert (Hne : fresh (dom (lists σ)) ≠ self) by by eapply lookup_fresh_ne.
  assert (Hr : lists (copy_state σ L) !! fresh (dom (lists σ))
               = Some (mkLinkedList (_first L) 0))
    by (simpl; by rewrite lookup_insert_eq).
  assert (Hs : lists (copy_state σ L) !! self = Some L)
    by (simpl; by rewrite lookup_insert_ne).
  split; [by apply copy_run|]. split; [done|].
  split; [unfold __len__; by rewrite (get_length_Ret _ _ _ Hr)|].
  split; [by rewrite (get_first_Ret _ _ _ Hr)|].
  split; [by rewrite (get_first_Ret _ _ _ Hs)|]. done.
Qed.

(** C10, as amended.  On a list with at least two nodes, [L.extend(L)] and
    [L + L] run out of fuel whatever fuel they are given: the iterator walks
    the chain the appends are lengthening, one node behind at best. *)
Theorem self_extend_diverges fuel σ self L ns :
  is_list σ self L ns → (2 ≤ length ns)%nat →
  extend fuel self self σ = OutOfFuel ∧ __add__ fuel self self σ = OutOfFuel.
Proof.
  intros [HL Hc] Hlen.
  destruct ns as [|[c x] ns]; [simpl in Hlen; lia|].
  assert (Hfirst : _first L = Some c) by by rewrite (chain_head _ _ _ Hc).
  set (r := fresh (dom (lists σ))). set (σc := copy_state σ L).
  assert (Hrs : r ≠ self) by by eapply lookup_fresh_ne.
  assert (HLc : lists σc !! self = Some L) by (simpl; by rewrite lookup_insert_ne).
  assert (Hr : is_list σc r (mkLinkedList (_first L) 0) ((c, x) :: ns)).
  { split; [simpl; by rewrite lookup_insert_eq|done]. }
  assert (Hloop : for_each fuel (mkIterator (_first L)) (λ x, append fuel r x) σc
                  = OutOfFuel).
  { rewrite Hfirst. by eapply (extend_loop_self _ _ _ _ _ _ 0%nat). }
  split.
  - unfold extend. mstep (copy_run fuel σ self L HL). mstep (iter_run _ _ _ HLc).
    by rewrite (bind_OutOfFuel _ _ _ Hloop).
  - unfold __add__. mstep (copy_run fuel σ self L HL). mstep (iter_run _ _ _ HLc).
    by rewrite (bind_OutOfFuel _ _ _ Hloop).
Qed.

(** * The rest of the container *)

(** ** [__setitem__] *)

Lemma set_item_Ret σ c x nx x' :
  nodes σ !! c = Some (mk_Node x nx) →
  set_item c x' σ = Ret tt (mkState (<[c := mk_Node x' nx]> (nodes σ)) (lists σ)).
Proof.
  intros H. unfold set_item. by rewrite (bind_Ret _ _ _ _ _ (get_node_Ret _ _ _ H)).
Qed.

Lemma chain_set_item h p ns k c y x :
  chain h p ns → ns !! k = Some (c, y) →
  chain (<[c := mk_Node x (fst <$> ns !! S k)]> h) p (<[k := (c, x)]> ns).
Proof.
  revert p k. induction ns as [|[c0 y0] ns IH]; intros p k Hc Hk; [done|].
  pose proof (chain_NoDup _ _ _ Hc) as Hnd.
  rewrite fmap_cons in Hnd. apply NoDup_cons in Hnd as [Hc0 Hnd].
  destruct Hc as (-> & nx & Hl & Hs). destruct k as [|k]; simpl in Hk |- *.
  - simplify_eq. split; [done|]. exists nx. rewrite lookup_insert_eq.
    split; [by rewrite (chain_head _ _ _ Hs)|]. by apply seg_frame.
  - split; [done|]. exists nx. rewrite lookup_insert_ne.
    + split; [done|]. by apply IH.
    + intros ->. apply Hc0. apply list_elem_of_lookup_2 in Hk.
      by apply (list_elem_of_fmap_2 fst) in Hk.
Qed.

Lemma setitem_loop_spec fuel σ p ns j i x :
  chain (nodes σ) p ns → (length ns < fuel)%nat →
  setitem_loop fuel p j i x σ
  = match (if decide (j ≤ i) then ns !! Z.to_nat (i - j) else None) with
    | Some (c, y) =>
        Ret (Some c)
          (mkState (<[c := mk_Node x (fst <$> ns !! S (Z.to_nat (i - j)))]> (nodes σ))
             (lists σ))
    | None => Ret None σ
    end.
Proof.
  revert p ns j.
  induction fuel as [|fuel IH]; intros p ns j Hc Hf; [lia|].
  destruct ns as [|[c y] ns].
  - unfold chain in Hc. simpl in Hc. subst p. simpl. by case_decide.
  - pose proof Hc as (-> & nx & Hl & Hs). cbn [setitem_loop].
    destruct (decide (j = i)) as [->|Hne].
    + rewrite decide_True by lia. rewrite Z.sub_diag. simpl.
      mstep (set_item_Ret _ _ _ _ x Hl). by rewrite (chain_head _ _ _ Hs).
    + mstep (get_next_Ret _ _ _ _ Hl).
      rewrite (IH nx ns); [|done|simpl in Hf; lia].
      destruct (decide (j + 1 ≤ i)).
      * rewrite decide_True by lia.
        replace (Z.to_nat (i - j)) with (S (Z.to_nat (i - (j + 1)))) by lia. done.
      * rewrite decide_False by lia. done.
Qed.

Lemma setitem_run fuel σ self L ns i x :
  is_list σ self L ns → (length ns < fuel)%nat →
  let j := if decide (i < 0) then _length L + i else i in
  __setitem__ fuel self i x σ
  = match (if decide (0 ≤ j) then ns !! Z.to_nat j else None) with
    | Some (c, y) =>
        Ret tt
          (mkState (<[c := mk_Node x (fst <$> ns !! S (Z.to_nat j))]> (nodes σ))
             (lists σ))
    | None => Raise IndexError σ
    end.
Proof.
  intros [HL Hc] Hf j. unfold __setitem__.
  mstep (adjust_run _ _ _ i HL). fold j.
  mstep (get_first_Ret _ _ _ HL).
  pose proof (setitem_loop_spec _ _ _ _ 0 j x Hc Hf) as Hloop.
  rewrite Z.sub_0_r in Hloop.
  case_decide; [destruct (ns !! Z.to_nat j) as [[c y]|]|]; by mstep Hloop.
Qed.

(** X3.  [L[i] = v] on a position that exists (after the adjustment of a
    negative [i] by the cached length) returns; then [to_list] differs from
    before at that position only, where it holds [v], [L[i]] gives [v], and
    the cached length is what it was.  On any other position it raises
    [IndexError] and the store is untouched. *)
Theorem setitem_getitem fuel σ self L ns i x :
  is_list σ self L ns → (length ns < fuel)%nat →
  let j := if decide (i < 0) then _length L + i else i in
  (0 ≤ j < Z.of_nat (length ns) →
     ∃ σ', __setitem__ fuel self i x σ = Ret tt σ'
       ∧ to_list fuel self σ' = Ret (<[Z.to_nat j := x]> ns.*2) σ'
       ∧ __getitem__ fuel self i σ' = Ret x σ'
       ∧ __len__ self σ' = Ret (_length L) σ')
  ∧ (¬ (0 ≤ j < Z.of_nat (length ns)) →
     __setitem__ fuel self i x σ = Raise IndexError σ).
Proof.
  intros HL Hf j. pose proof (setitem_run fuel σ self L ns i x HL Hf) as Hrun.
  cbv zeta in Hrun. fold j in Hrun. split.
  - intros Hj. rewrite decide_True in Hrun by lia.
    destruct (lookup_lt_is_Some_2 ns (Z.to_nat j)) as [[c y] Hk]; [lia|].
    rewrite Hk in Hrun. eexists. split; [done|].
    destruct HL as [HL Hc].
    assert (HL' : is_list
      (mkState (<[c := mk_Node x (fst <$> ns !! S (Z.to_nat j))]> (nodes σ)) (lists σ))
      self L (<[Z.to_nat j := (c, x)]> ns)).
    { split; [done|]. by eapply chain_set_item. }
    assert (Hf' : (length (<[Z.to_nat j := (c, x)]> ns) < fuel)%nat)
      by by rewrite length_insert.
    split; [|split].
    + rewrite (to_list_spec _ _ _ _ _ HL' Hf'). by rewrite list_fmap_insert.
    + rewrite (getitem_run _ _ _ _ _ i HL' Hf'). fold j.
      rewrite decide_True by lia.
      rewrite list_lookup_insert_eq; [done|lia].
    + destruct HL' as [HL' _]. unfold __len__.
      by rewrite (get_length_Ret _ _ _ HL').
  - intros Hj. rewrite Hrun. case_decide; [|done].
    rewrite lookup_ge_None_2; [done|lia].
Qed.

(** ** [__contains__], [count] and [index] *)

Lemma contains_loop_spec fuel σ p ns x :
  chain (nodes σ) p ns → (length ns < fuel)%nat →
  contains_loop fuel p x σ = Ret (bool_decide (x ∈ ns.*2)) σ.
Proof.
  revert p ns. induction fuel as [|fuel IH]; intros p ns Hc Hf; [lia|].
  destruct ns as [|[c y] ns].
  - unfold chain in Hc. simpl in Hc. subst p. cbn [contains_loop fmap list_fmap].
    rewrite bool_decide_eq_false_2; [done|apply not_elem_of_nil].
  - destruct Hc as (-> & nx & Hl & Hs). cbn [contains_loop].
    mstep (get_item_Ret _ _ _ _ Hl). rewrite fmap_cons. simpl.
    destruct (decide (y = x)) as [->|Hne].
    + rewrite bool_decide_eq_true_2; [done|by left].
    + mstep (get_next_Ret _ _ _ _ Hl).
      rewrite (IH nx ns); [|done|simpl in Hf; lia].
      f_equal. apply bool_decide_ext. rewrite elem_of_cons.
      split; intros H; try (by right); destruct H as [->|H]; done.
Qed.

Lemma count_loop_spec fuel σ p ns x n :
  chain (nodes σ) p ns → (length ns < fuel)%nat →
  count_loop fuel p x n σ
  = Ret (n + Z.of_nat (length (filter (λ y, y = x) ns.*2))) σ.
Proof.
  revert p ns n. induction fuel as [|fuel IH]; intros p ns n Hc Hf; [lia|].
  destruct ns as [|[c y] ns].
  - unfold chain in Hc. simpl in Hc. subst p. simpl. unfold ret. f_equal. lia.
  - destruct Hc as (-> & nx & Hl & Hs). cbn [count_loop].
    mstep (get_item_Ret _ _ _ _ Hl). mstep (get_next_Ret _ _ _ _ Hl).
    rewrite (IH nx ns); [|done|simpl in Hf; lia].
    rewrite fmap_cons, filter_cons. simpl.
    destruct (decide (y = x)); simpl; f_equal; lia.
Qed.

Lemma index_loop_absent fuel σ p ns x k :
  chain (nodes σ) p ns → (length ns < fuel)%nat → x ∉ ns.*2 →
  index_loop fuel p x k σ = Raise ValueError σ.
Proof.
  revert p ns k. induction fuel as [|fuel IH]; intros p ns k Hc Hf Hx; [lia|].
  destruct ns as [|[c y] ns].
  - unfold chain in Hc. simpl in Hc. by subst p.
  - destruct Hc as (-> & nx & Hl & Hs). cbn [index_loop].
    rewrite fmap_cons in Hx. apply not_elem_of_cons in Hx as [Hne Hx].
    mstep (get_item_Ret _ _ _ _ Hl). rewrite decide_False by done.
    mstep (get_next_Ret _ _ _ _ Hl). apply (IH nx ns); [done|simpl in Hf; lia|done].
Qed.

Lemma index_loop_present fuel σ p l1 c x l2 k :
  chain (nodes σ) p (l1 ++ (c, x) :: l2) → (length l1 < fuel)%nat → x ∉ l1.*2 →
  index_loop fuel p x k σ = Ret (k + Z.of_nat (length l1)) σ.
Proof.
  revert p l1 k. induction fuel as [|fuel IH]; intros p l1 k Hc Hf Hx; [lia|].
  destruct l1 as [|[c0 y0] l1]; simpl in Hc.
  - destruct Hc as (-> & nx & Hl & Hs). cbn [index_loop].
    mstep (get_item_Ret _ _ _ _ Hl). rewrite decide_True by done.
    unfold ret. f_equal. simpl. lia.
  - destruct Hc as (-> & nx & Hl & Hs). cbn [index_loop].
    rewrite fmap_cons in Hx. apply not_elem_of_cons in Hx as [Hne Hx].
    mstep (get_item_Ret _ _ _ _ Hl). rewrite decide_False by done.
    mstep (get_next_Ret _ _ _ _ Hl).
    rewrite (IH nx l1); [|done|simpl in Hf; lia|done].
    f_equal. simpl length. lia.
Qed.

Lemma contains_run fuel σ self L ns x :
  is_list σ self L ns → (length ns < fuel)%nat →
  __contains__ fuel self x σ = Ret (bool_decide (x ∈ ns.*2)) σ.
Proof.
  intros [HL Hc] Hf. unfold __contains__.
  by rewrite (bind_Ret _ _ _ _ _ (get_first_Ret _ _ _ HL)), (contains_loop_spec _ _ _ ns).
Qed.

(** X7.  [x in L] answers whether some node of the chain holds an item equal
    to [x], and changes nothing. *)
Theorem contains_membership fuel σ self L ns x :
  is_list σ self L ns → (length ns < fuel)%nat →
  __contains__ fuel self x σ = Ret (bool_decide (x ∈ ns.*2)) σ.
Proof.
  intros [HL Hc] Hf. unfold __contains__. mstep (get_first_Ret _ _ _ HL).
  by apply contains_loop_spec.
Qed.

(** X8.  [L.count(x)] is the number of positions of [to_list] holding an
    item equal to [x]; it is positive exactly when [x in L] is true. *)
Theorem count_occurrences fuel σ self L ns x :
  is_list σ self L ns → (length ns < fuel)%nat →
  ∃ n : nat,
    count fuel self x σ = Ret (Z.of_nat n) σ
    ∧ n = length (filter (λ y, y = x) ns.*2)
    ∧ to_list fuel self σ = Ret ns.*2 σ
    ∧ (__contains__ fuel self x σ = Ret true σ ↔ (0 < n)%nat).
Proof.
  intros HL Hf. exists (length (filter (λ y, y = x) ns.*2)).
  split; [|split; [done|split; [by eapply to_list_spec|]]].
  - destruct HL as [HL Hc]. unfold count. mstep (get_first_Ret _ _ _ HL).
    by rewrite (count_loop_spec _ _ _ ns).
  - rewrite (contains_run _ _ _ _ _ x HL Hf).
    split.
    + intros [= Hb%bool_decide_eq_true_1].
      assert (Hin : x ∈ filter (λ y, y = x) ns.*2)
        by by apply list_elem_of_filter.
      destruct (filter _ _); [by apply elem_of_nil in Hin|simpl; lia].
    + intros Hn. f_equal. apply bool_decide_eq_true_2.
      destruct (filter (λ y, y = x) ns.*2) as [|z l] eqn:Hfil; [simpl in Hn; lia|].
      assert (Hz : z ∈ filter (λ y, y = x) ns.*2) by (rewrite Hfil; by left).
      apply list_elem_of_filter in Hz as [-> Hz]. done.
Qed.

(** X9.  [L.index(x)] raises [ValueError], the store untouched, exactly when
    no node holds [x]; otherwise it returns the position of the first node
    holding [x], and [L[L.index(x)]] is [x]. *)
Theorem index_first fuel σ self L ns x :
  is_list σ self L ns → (length ns < fuel)%nat →
  (x ∉ ns.*2 → index fuel self x σ = Raise ValueError σ)
  ∧ ((∃ e σ', index fuel self x σ = Raise e σ') ↔ x ∉ ns.*2)
  ∧ (∀ l1 c l2, ns = l1 ++ (c, x) :: l2 → x ∉ l1.*2 →
       index fuel self x σ = Ret (Z.of_nat (length l1)) σ
       ∧ __getitem__ fuel self (Z.of_nat (length l1)) σ = Ret x σ).
Proof.
  intros HL Hf.
  assert (Habs : x ∉ ns.*2 → index fuel self x σ = Raise ValueError σ).
  { intros Hx. destruct HL as [HL Hc]. unfold index.
    mstep (get_first_Ret _ _ _ HL). by apply (index_loop_absent _ _ _ ns). }
  assert (Hpres : ∀ l1 c l2, ns = l1 ++ (c, x) :: l2 → x ∉ l1.*2 →
    index fuel self x σ = Ret (Z.of_nat (length l1)) σ
    ∧ __getitem__ fuel self (Z.of_nat (length l1)) σ = Ret x σ).
  { intros l1 c l2 -> Hx. split.
    - destruct HL as [HL Hc]. unfold index. mstep (get_first_Ret _ _ _ HL).
      rewrite (index_loop_present _ _ _ l1 c x l2 0 Hc); [done| |done].
      rewrite length_app in Hf. lia.
    - rewrite (getitem_run _ _ _ _ _ _ HL Hf). cbv zeta.
      rewrite (decide_False (P := Z.of_nat (length l1) < 0)) by lia.
      rewrite decide_True by lia.
      rewrite Nat2Z.id, list_lookup_middle; done. }
  split; [done|]. split; [|done]. split.
  - intros (e & σ' & Hr) Hin.
    apply list_elem_of_split_l in Hin as (k1 & k2 & Hsplit & Hx).
    apply fmap_app_inv in Hsplit as (l1 & l2' & -> & Hk2 & ->).
    symmetry in Hk2. apply fmap_cons_inv in Hk2 as ([d x'] & l2 & Hx' & -> & ->).
    simpl in Hx'. subst x'.
    destruct (Hpres l1 d l2 eq_refl Hx) as [Hrun _]. congruence.
  - intros Hx. eauto.
Qed.

(** ** [__init__] and [append] *)

(** X1.  [LinkedList(items)] returns a new object that reads back [items]:
    [to_list] gives [items] in order, the cached length is their number and
    counts the nodes of the new chain. *)
Theorem init_to_list fuel σ (items : list E) :
  (length items ≤ fuel)%nat →
  ∃ r σ',
    __init__ fuel (Some items) None σ = Ret r σ'
    ∧ lists σ !! r = None
    ∧ to_list (S fuel) r σ' = Ret items σ'
    ∧ __len__ r σ' = Ret (Z.of_nat (length items)) σ'
    ∧ counted σ' r.
Proof.
  intros Hf.
  destruct (init_spec fuel σ items Hf)
    as (σ' & L' & added & Hrun & Hlists & Hch & Hit & Hlen).
  assert (HL' : is_list σ' (fresh (dom (lists σ))) L' added).
  { split; [by rewrite Hlists, lookup_insert_eq|done]. }
  assert (Hadded : length added = length items)
    by by rewrite <- Hit, length_fmap.
  exists (fresh (dom (lists σ))), σ'. split; [done|]. split.
  { apply not_elem_of_dom. apply is_fresh. }
  split; [rewrite (to_list_spec _ _ _ _ _ HL'); [by rewrite Hit|lia]|].
  split.
  { destruct HL' as [HL' _]. unfold __len__.
    by rewrite (get_length_Ret _ _ _ HL'), Hlen. }
  exists L', added. split; [done|]. by rewrite Hlen, Hadded.
Qed.

(** X2.  [append x] returns with [x] in a new last node: [to_list] is the old
    sequence followed by [x], the cached length is one more, the item at the
    old node count is [x], and when the cached length counted the nodes so
    is the item at [-1]. *)
Theorem append_last fuel σ self L ns x :
  is_list σ self L ns → (length ns < fuel)%nat →
  ∃ σ',
    append fuel self x σ = Ret tt σ'
    ∧ to_list (S fuel) self σ' = Ret (ns.*2 ++ [x]) σ'
    ∧ __len__ self σ' = Ret (_length L + 1) σ'
    ∧ __getitem__ (S fuel) self (Z.of_nat (length ns)) σ' = Ret x σ'
    ∧ (_length L = Z.of_nat (length ns) →
       __getitem__ (S fuel) self (-1) σ' = Ret x σ').
Proof.
  intros HL Hf. exists (append_state σ self L ns x).
  pose proof (append_is_list _ _ _ _ x HL) as HL'.
  set (d := fresh (dom (nodes σ))) in *.
  assert (Hf' : (length (ns ++ [(d, x)]) < S fuel)%nat)
    by (rewrite length_app; simpl; lia).
  split; [by rewrite (append_run fuel σ self L ns x HL), decide_True by lia|].
  split; [by rewrite (to_list_spec _ _ _ _ _ HL' Hf'), fmap_app|].
  split.
  { destruct HL' as [HL' _]. unfold __len__. by rewrite (get_length_Ret _ _ _ HL'). }
  split.
  - rewrite (getitem_run _ _ _ _ _ _ HL' Hf'). cbv zeta.
    rewrite (decide_False (P := Z.of_nat (length ns) < 0)) by lia.
    rewrite decide_True by lia.
    by rewrite Nat2Z.id, list_lookup_middle.
  - intros Hn. rewrite (getitem_run _ _ _ _ _ _ HL' Hf'). cbv zeta.
    rewrite (decide_True (P := -1 < 0)) by lia. simpl _length.
    rewrite decide_True by lia.
    replace (Z.to_nat (_length L + 1 + -1)) with (length ns) by lia.
    by rewrite list_lookup_middle.
Qed.

(** ** [insert] *)

Lemma insert_loop_getitem fuel : ∀ p k i σ,
  insert_loop fuel p k i σ = getitem_loop fuel p k (i - 1) σ.
Proof.
  induction fuel as [|fuel IH]; intros p k i σ; [done|].
  cbn [insert_loop getitem_loop]. destruct p as [c|]; [|done].
  case_decide; [|done]. unfold bind. destruct (get_next c σ); auto.
Qed.

Lemma insert_front fuel σ self L ns i x :
  is_list σ self L ns →
  (if decide (i < 0) then _length L + i else i) = 0 →
  ∃ σ',
    insert fuel self i x σ = Ret tt σ'
    ∧ is_list σ' self
        (mkLinkedList (Some (fresh (dom (nodes σ)))) (_length L + 1))
        ((fresh (dom (nodes σ)), x) :: ns).
Proof.
  intros [HL Hc] Hj. unfold insert.
  mstep (adjust_run _ _ _ i HL). rewrite Hj. rewrite decide_True by done.
  mstep (get_first_Ret _ _ _ HL). mstep (new_Node_Ret σ x (_first L)).
  set (d := fresh (dom (nodes σ))). set (σ1 := mkState _ _).
  assert (HL1 : lists σ1 !! self = Some L) by done.
  mstep (set_first_Ret _ _ _ (Some d) HL1).
  set (σ2 := mkState _ _).
  assert (HL2 : lists σ2 !! self = Some (mkLinkedList (Some d) (_length L)))
    by (simpl; by rewrite lookup_insert_eq).
  mstep (get_length_Ret _ _ _ HL2). rewrite (set_length_Ret _ _ _ _ HL2).
  eexists. split; [done|]. split; simpl.
  - by rewrite lookup_insert_eq.
  - split; [done|]. exists (_first L). rewrite lookup_insert_eq.
    split; [done|]. apply seg_frame; [|done]. by eapply seg_fresh.
Qed.

Lemma insert_middle fuel σ self L l1 c y l2 i x :
  is_list σ self L (l1 ++ (c, y) :: l2) →
  (length (l1 ++ (c, y) :: l2) < fuel)%nat →
  (if decide (i < 0) then _length L + i else i) = Z.of_nat (length l1) + 1 →
  ∃ σ',
    insert fuel self i x σ = Ret tt σ'
    ∧ is_list σ' self (mkLinkedList (_first L) (_length L + 1))
        (l1 ++ (c, y) :: (fresh (dom (nodes σ)), x) :: l2).
Proof.
  intros [HL Hc] Hf Hj. unfold insert.
  mstep (adjust_run _ _ _ i HL). rewrite Hj. rewrite decide_False by lia.
  mstep (get_first_Ret _ _ _ HL).
  assert (Hloop : insert_loop fuel (_first L) 0 (Z.of_nat (length l1) + 1) σ
                  = Ret (Some c) σ).
  { rewrite insert_loop_getitem, (getitem_loop_spec _ _ _ _ _ _ Hc Hf).
    rewrite decide_True by lia.
    replace (Z.to_nat (Z.of_nat (length l1) + 1 - 1 - 0)) with (length l1) by lia.
    by rewrite list_lookup_middle. }
  mstep Hloop.
  pose proof (chain_NoDup _ _ _ Hc) as Hnd.
  pose proof (seg_fresh _ _ _ _ Hc) as Hd.
  rewrite fmap_app, fmap_cons in Hnd, Hd. simpl in Hnd, Hd.
  apply NoDup_app in Hnd as (_ & Hc1 & [Hc2 _]%NoDup_cons).
  apply not_elem_of_app in Hd as [Hd1 [Hdc Hd2]%not_elem_of_cons].
  apply seg_app in Hc as (m & Hs1 & (-> & nx & Hl & Hs2)).
  mstep (get_next_Ret _ _ _ _ Hl). mstep (new_Node_Ret σ x nx).
  set (d := fresh (dom (nodes σ))) in *. set (σ1 := mkState _ _).
  assert (Hl1 : nodes σ1 !! c = Some (mk_Node y nx))
    by (simpl; by rewrite lookup_insert_ne).
  mstep (set_next_Ret _ _ _ _ (Some d) Hl1).
  set (σ2 := mkState _ _).
  assert (HL2 : lists σ2 !! self = Some L) by done.
  mstep (get_length_Ret _ _ _ HL2). rewrite (set_length_Ret _ _ _ _ HL2).
  eexists. split; [done|]. split; simpl; [by rewrite lookup_insert_eq|].
  apply seg_app. exists (Some c). split.
  - apply seg_frame; [|by apply seg_frame].
    intros Hin. apply (Hc1 c); [done|by left].
  - simpl. split; [done|]. exists (Some d). rewrite lookup_insert_eq.
    split; [done|]. split; [done|]. exists nx.
    rewrite lookup_insert_ne, lookup_insert_eq by done.
    split; [done|]. apply seg_frame; [done|by apply seg_frame].
Qed.

Lemma insert_out fuel σ self L ns i x :
  is_list σ self L ns → (length ns < fuel)%nat →
  let j := if decide (i < 0) then _length L + i else i in
  j < 0 ∨ Z.of_nat (length ns) < j →
  insert fuel self i x σ = Raise IndexError σ.
Proof.
  intros [HL Hc] Hf j Hj. unfold insert.
  mstep (adjust_run _ _ _ i HL). fold j. rewrite decide_False by lia.
  mstep (get_first_Ret _ _ _ HL).
  assert (Hloop : insert_loop fuel (_first L) 0 j σ = Ret None σ).
  { rewrite insert_loop_getitem, (getitem_loop_spec _ _ _ _ _ _ Hc Hf).
    case_decide; [|done]. rewrite lookup_ge_None_2; [done|lia]. }
  by mstep Hloop.
Qed.

(** X4.  [insert(i, x)], with a negative [i] first adjusted by the cached
    length to [j]: for [0 <= j <=] the node count it returns, [to_list] is the
    old sequence with [x] put in at position [j] (at the end when [j] is the
    node count), and the cached length is one more; for any other [j] it
    raises [IndexError] and the store is untouched. *)
Theorem insert_at fuel σ self L ns i x :
  is_list σ self L ns → (length ns < fuel)%nat →
  let j := if decide (i < 0) then _length L + i else i in
  (0 ≤ j ≤ Z.of_nat (length ns) →
     ∃ σ', insert fuel self i x σ = Ret tt σ'
       ∧ to_list (S fuel) self σ'
         = Ret (take (Z.to_nat j) ns.*2 ++ x :: drop (Z.to_nat j) ns.*2) σ'
       ∧ __len__ self σ' = Ret (_length L + 1) σ')
  ∧ (¬ (0 ≤ j ≤ Z.of_nat (length ns)) →
     insert fuel self i x σ = Raise IndexError σ).
Proof.
  intros HL Hf j. split.
  - intros Hj. destruct (decide (j = 0)) as [Hj0|Hj0].
    + destruct (insert_front fuel σ self L ns i x HL Hj0) as (σ' & Hrun & HL').
      exists σ'. split; [done|]. split.
      * rewrite (to_list_spec _ _ _ _ _ HL'); [|simpl; lia].
        by rewrite Hj0, take_0, drop_0.
      * destruct HL' as [HL' _]. unfold __len__.
        by rewrite (get_length_Ret _ _ _ HL').
    + destruct (lookup_lt_is_Some_2 ns (Z.to_nat (j - 1))) as [[c y] Hk]; [lia|].
      pose proof (take_drop_middle _ _ _ Hk) as Hsplit.
      set (l1 := take (Z.to_nat (j - 1)) ns) in *.
      set (l2 := drop (S (Z.to_nat (j - 1))) ns) in *.
      assert (Hl1 : length l1 = Z.to_nat (j - 1)).
      { unfold l1. rewrite length_take. lia. }
      rewrite <- Hsplit in HL, Hf.
      destruct (insert_middle fuel σ self L l1 c y l2 i x HL Hf) as (σ' & Hrun & HL').
      { fold j. lia. }
      exists σ'. split; [done|]. split.
      * rewrite (to_list_spec _ _ _ _ _ HL').
        2:{ rewrite length_app in Hf |- *. simpl in Hf |- *. lia. }
        f_equal. rewrite <- Hsplit.
        replace (Z.to_nat j) with (length (l1 ++ [(c, y)]).*2)
          by (rewrite length_fmap, length_app; simpl; lia).
        rewrite (cons_middle (c, y) l1 l2), app_assoc, (fmap_app _ (l1 ++ _) l2).
        rewrite take_app_length, drop_app_length.
        rewrite !fmap_app, <- !app_assoc. done.
      * destruct HL' as [HL' _]. unfold __len__.
        by rewrite (get_length_Ret _ _ _ HL').
  - intros Hj. apply (insert_out _ _ _ L ns); [done|done|]. fold j. lia.
Qed.

(** ** [pop] *)

Lemma pop_front fuel σ self L c y ns i :
  is_list σ self L ((c, y) :: ns) →
  (if decide (i < 0) then _length L + i else i) = 0 →
  ∃ σ' p',
    pop fuel self i σ = Ret y σ'
    ∧ nodes σ' = nodes σ
    ∧ is_list σ' self (mkLinkedList p' (_length L - 1)) ns.
Proof.
  intros [HL Hc] Hj. unfold pop.
  mstep (adjust_run _ _ _ i HL). rewrite Hj. rewrite decide_True by done.
  mstep (get_first_Ret _ _ _ HL).
  pose proof Hc as (Hfirst & nx & Hl & Hs). rewrite Hfirst.
  mstep (get_item_Ret _ _ _ _ Hl). mstep (get_next_Ret _ _ _ _ Hl).
  mstep (set_first_Ret _ _ _ nx HL).
  set (σ1 := mkState _ _).
  assert (HL1 : lists σ1 !! self = Some (mkLinkedList nx (_length L)))
    by (simpl; by rewrite lookup_insert_eq).
  mstep (get_length_Ret _ _ _ HL1). mstep (set_length_Ret _ _ _ (_length L - 1) HL1).
  eexists _, nx. split; [done|]. split; [done|].
  split; simpl; [by rewrite lookup_insert_eq|done].
Qed.

(** The walk of [pop] reaches the node before position [i] and that node
    has a successor: the successor is unlinked. *)
Lemma pop_loop_present self L i d x l2 fuel : ∀ σ p k l1 c y,
  lists σ !! self = Some L →
  chain (nodes σ) p (l1 ++ (c, y) :: (d, x) :: l2) →
  k + Z.of_nat (length l1) = i - 1 → (length l1 < fuel)%nat →
  ∃ σ',
    pop_loop fuel self p k i σ = Ret x σ'
    ∧ lists σ' = <[self := mkLinkedList (_first L) (_length L - 1)]> (lists σ)
    ∧ chain (nodes σ') p (l1 ++ (c, y) :: l2)
    ∧ (∀ a, a ∉ (l1 ++ [(c, y)]).*1 → nodes σ' !! a = nodes σ !! a).
Proof.
  induction fuel as [|fuel IH]; intros σ p k l1 c y HL Hc Hk Hf; [lia|].
  pose proof (chain_NoDup _ _ _ Hc) as Hnd.
  destruct l1 as [|[c0 y0] l1]; simpl in Hc, Hk, Hnd.
  - destruct Hc as (-> & nx & Hl & (-> & nnx & Hd & Hs)). cbn [pop_loop].
    rewrite decide_True by lia.
    mstep (get_next_Ret _ _ _ _ Hl). mstep (get_item_Ret _ _ _ _ Hd).
    mstep (get_next_Ret _ _ _ _ Hd). mstep (set_next_Ret _ _ _ _ nnx Hl).
    set (σ1 := mkState _ _).
    assert (HL1 : lists σ1 !! self = Some L) by done.
    mstep (get_length_Ret _ _ _ HL1). mstep (set_length_Ret _ _ _ (_length L - 1) HL1).
    eexists. split; [done|]. split; [done|]. split.
    + simpl. split; [done|]. exists nnx. rewrite lookup_insert_eq.
      split; [done|]. apply seg_frame; [|done].
      apply NoDup_cons in Hnd as [Hnd _].
      by apply not_elem_of_cons in Hnd as [_ ?].
    + intros a Ha. simpl. rewrite lookup_insert_ne; [done|].
      intros ->. apply Ha. simpl. by left.
  - destruct Hc as (-> & nx & Hl & Hs). cbn [pop_loop].
    rewrite decide_False by lia. mstep (get_next_Ret _ _ _ _ Hl).
    destruct (IH σ nx (k + 1) l1 c y HL Hs) as (σ' & Hrun & Hlists & Hch & Hfr);
      [lia|simpl in Hf; lia|].
    exists σ'. split; [done|]. split; [done|]. split.
    + simpl. split; [done|]. exists nx. split; [|done].
      rewrite Hfr; [done|]. apply NoDup_cons in Hnd as [Hnd _].
      intros Hin. apply Hnd. rewrite fmap_app in Hin |- *. simpl in Hin |- *.
      apply elem_of_app in Hin as [Hin|Hin%list_elem_of_singleton];
        apply elem_of_app; [by left|right; subst; by left].
    + intros a Ha. apply Hfr. intros Hin. apply Ha. simpl. by right.
Qed.

(** The walk of [pop] finds no node before position [i], or that node is
    the last one. *)
Lemma pop_loop_absent self i fuel : ∀ σ p k ns,
  chain (nodes σ) p ns → (length ns < fuel)%nat →
  i - 1 < k ∨ Z.of_nat (length ns) ≤ i - k →
  pop_loop fuel self p k i σ = Raise IndexError σ.
Proof.
  induction fuel as [|fuel IH]; intros σ p k ns Hc Hf Hk; [lia|].
  destruct ns as [|[c y] ns].
  - unfold chain in Hc. simpl in Hc. by subst p.
  - destruct Hc as (-> & nx & Hl & Hs). cbn [pop_loop]. simpl in Hf, Hk.
    destruct (decide (k = i - 1)) as [Heq|Hne].
    + mstep (get_next_Ret _ _ _ _ Hl).
      destruct ns as [|[d x] ns]; [|simpl in Hk; lia].
      unfold chain in Hs. simpl in Hs. by subst nx.
    + mstep (get_next_Ret _ _ _ _ Hl). apply (IH _ _ _ ns); [done|lia|lia].
Qed.

Lemma pop_present fuel σ self L l1 d x l2 i :
  is_list σ self L (l1 ++ (d, x) :: l2) →
  (length (l1 ++ (d, x) :: l2) < fuel)%nat →
  (if decide (i < 0) then _length L + i else i) = Z.of_nat (length l1) →
  ∃ σ' p',
    pop fuel self i σ = Ret x σ'
    ∧ is_list σ' self (mkLinkedList p' (_length L - 1)) (l1 ++ l2).
Proof.
  intros HL Hf Hj. destruct l1 as [|[c y] l1 _] using rev_ind.
  - destruct (pop_front fuel σ self L d x l2 i HL Hj) as (σ' & p' & ? & _ & ?).
    by exists σ', p'.
  - rewrite length_app in Hj. simpl in Hj.
    rewrite <- app_assoc in HL, Hf. simpl in HL.
    destruct HL as [HL Hc]. unfold pop.
    mstep (adjust_run _ _ _ i HL). rewrite Hj. rewrite decide_False by lia.
    mstep (get_first_Ret _ _ _ HL).
    destruct (pop_loop_present self L (Z.of_nat (length l1 + 1)) d x l2 fuel σ
                (_first L) 0 l1 c y HL Hc)
      as (σ' & Hrun & Hlists & Hch & _); [lia|rewrite length_app in Hf; lia|].
    exists σ', (_first L). split; [done|]. split.
    + by rewrite Hlists, lookup_insert_eq.
    + simpl. by rewrite <- app_assoc.
Qed.

Lemma pop_out fuel σ self L ns i :
  is_list σ self L ns → (length ns < fuel)%nat →
  let j := if decide (i < 0) then _length L + i else i in
  ¬ (0 ≤ j < Z.of_nat (length ns)) → pop fuel self i σ = Raise IndexError σ.
Proof.
  intros [HL Hc] Hf j Hj. unfold pop.
  mstep (adjust_run _ _ _ i HL). fold j.
  destruct (decide (j = 0)) as [Hj0|Hj0].
  - destruct ns as [|? ns]; [|simpl in Hj; lia].
    mstep (get_first_Ret _ _ _ HL). by rewrite (chain_head _ _ _ Hc).
  - mstep (get_first_Ret _ _ _ HL).
    apply (pop_loop_absent _ _ _ _ _ _ ns); [done|done|lia].
Qed.

(** X6.  [pop(i)], with a negative [i] first adjusted by the cached length to
    [j]: when position [j] exists it returns the item there (what [L[i]]
    gives), unlinks that node and takes one off the cached length; when it
    does not, and so always on an empty list, it raises [IndexError] and the
    store is untouched. *)
Theorem pop_at fuel σ self L ns i :
  is_list σ self L ns → (length ns < fuel)%nat →
  let j := if decide (i < 0) then _length L + i else i in
  (∀ l1 d x l2, ns = l1 ++ (d, x) :: l2 → j = Z.of_nat (length l1) →
     ∃ σ' p',
       pop fuel self i σ = Ret x σ'
       ∧ __getitem__ fuel self i σ = Ret x σ
       ∧ is_list σ' self (mkLinkedList p' (_length L - 1)) (l1 ++ l2)
       ∧ to_list fuel self σ' = Ret (l1.*2 ++ l2.*2) σ'
       ∧ __len__ self σ' = Ret (_length L - 1) σ')
  ∧ (¬ (0 ≤ j < Z.of_nat (length ns)) → pop fuel self i σ = Raise IndexError σ).
Proof.
  intros HL Hf j. split.
  - intros l1 d x l2 -> Hj.
    assert (Hget : __getitem__ fuel self i σ = Ret x σ).
    { rewrite (getitem_run _ _ _ _ _ i HL Hf). cbv zeta. fold j.
      rewrite decide_True by lia. rewrite Hj, Nat2Z.id.
      by rewrite list_lookup_middle. }
    destruct (pop_present fuel σ self L l1 d x l2 i HL Hf Hj)
      as (σ' & p' & Hrun & HL').
    exists σ', p'. split; [done|]. split; [done|]. split; [done|]. split.
    + rewrite (to_list_spec _ _ _ _ _ HL'), fmap_app; [done|].
      rewrite length_app in Hf |- *. simpl in Hf. lia.
    + destruct HL' as [HL' _]. unfold __len__.
      by rewrite (get_length_Ret _ _ _ HL').
  - intros Hj. by apply (pop_out _ _ _ L ns).
Qed.

(** X5.  [insert(0, x)] followed by [pop(0)] gives back [x] and leaves the
    list object as it was: same head, same cached length, same items. *)
Theorem insert_pop_front fuel σ self L ns x :
  is_list σ self L ns → (length ns < fuel)%nat →
  ∃ σ1 σ2,
    insert fuel self 0 x σ = Ret tt σ1
    ∧ pop fuel self 0 σ1 = Ret x σ2
    ∧ is_list σ2 self L ns
    ∧ to_list fuel self σ2 = Ret ns.*2 σ2
    ∧ __len__ self σ2 = Ret (_length L) σ2.
Proof.
  intros HL Hf.
  destruct (insert_front fuel σ self L ns 0 x HL) as (σ1 & Hrun1 & HL1); [done|].
  destruct (pop_front fuel σ1 self _ _ x ns 0 HL1) as (σ2 & p' & Hrun2 & Hn & HL2);
    [done|].
  assert (HL2' : is_list σ2 self L ns).
  { destruct HL2 as [HL2 Hc2], HL as [_ Hc]. simpl in *. split.
    - rewrite HL2. f_equal. destruct L as [f n]. simpl in *. f_equal; [|lia].
      by rewrite (chain_head _ _ _ Hc2), (chain_head _ _ _ Hc).
    - by rewrite (chain_head _ _ _ Hc), <- (chain_head _ _ _ Hc2). }
  exists σ1, σ2. split; [done|]. split; [done|]. split; [done|].
  split; [by apply (to_list_spec _ _ _ _ _ HL2')|].
  destruct HL2' as [HL2' _]. unfold __len__. by rewrite (get_length_Ret _ _ _ HL2').
Qed.

(** ** The cached length *)

Lemma insert_returns fuel σ self L ns i x :
  is_list σ self L ns → (length ns < fuel)%nat →
  0 ≤ (if decide (i < 0) then _length L + i else i) ≤ Z.of_nat (length ns) →
  ∃ σ' L' ns',
    insert fuel self i x σ = Ret tt σ'
    ∧ is_list σ' self L' ns'
    ∧ _length L' = _length L + 1
    ∧ length ns' = S (length ns).
Proof.
  intros HL Hf Hj.
  destruct (decide ((if decide (i < 0) then _length L + i else i) = 0)) as [Hj0|Hj0].
  - destruct (insert_front fuel σ self L ns i x HL Hj0) as (σ' & Hrun & HL').
    by eexists σ', _, _.
  - set (j := if decide (i < 0) then _length L + i else i) in *.
    destruct (lookup_lt_is_Some_2 ns (Z.to_nat (j - 1))) as [[c y] Hk]; [lia|].
    pose proof (take_drop_middle _ _ _ Hk) as Hsplit.
    assert (Hl1 : length (take (Z.to_nat (j - 1)) ns) = Z.to_nat (j - 1)).
    { rewrite length_take. lia. }
    pose proof (f_equal length Hsplit) as Hlen.
    rewrite length_app in Hlen. simpl in Hlen.
    rewrite <- Hsplit in HL, Hf.
    destruct (insert_middle fuel σ self L _ c y _ i x HL Hf) as (σ' & Hrun & HL').
    { fold j. lia. }
    eexists σ', _, _. split; [done|]. split; [done|]. split; [done|].
    rewrite length_app. simpl. lia.
Qed.

(** X10.  On a list whose cached length counts its nodes, whenever
    [append], [insert], [pop], [remove], [__setitem__], [invert] or [sort]
    returns, the cached length counts the nodes again. *)
Theorem counted_kept (ltb : E → E → bool) fuel σ self L ns :
  is_list σ self L ns → _length L = Z.of_nat (length ns) →
  (length ns < fuel)%nat →
  (∀ x σ', append fuel self x σ = Ret tt σ' → counted σ' self)
  ∧ (∀ i x σ', insert fuel self i x σ = Ret tt σ' → counted σ' self)
  ∧ (∀ i y σ', pop fuel self i σ = Ret y σ' → counted σ' self)
  ∧ (∀ x σ', remove fuel self x σ = Ret tt σ' → counted σ' self)
  ∧ (∀ i x σ', __setitem__ fuel self i x σ = Ret tt σ' → counted σ' self)
  ∧ (∀ σ', invert fuel self σ = Ret tt σ' → counted σ' self)
  ∧ (∀ reverse σ', sort ltb fuel self reverse σ = Ret tt σ' → counted σ' self).
Proof.
  intros HL Hn Hf. repeat split.
  - intros x σ' Hrun.
    rewrite (append_run fuel σ self L ns x HL), decide_True in Hrun by lia.
    simplify_eq. eexists _, _. split; [by apply append_is_list|].
    simpl. rewrite length_app. simpl. lia.
  - intros i x σ' Hrun.
    set (j := if decide (i < 0) then _length L + i else i).
    destruct (decide (0 ≤ j ≤ Z.of_nat (length ns))) as [Hj|Hj].
    + destruct (insert_returns fuel σ self L ns i x HL Hf Hj)
        as (σ1 & L' & ns' & Hrun' & HL' & HlenL & Hlen').
      rewrite Hrun' in Hrun. simplify_eq. exists L', ns'. split; [done|]. lia.
    + rewrite (insert_out fuel σ self L ns i x HL Hf) in Hrun; [done|].
      fold j. lia.
  - intros i y σ' Hrun.
    set (j := if decide (i < 0) then _length L + i else i).
    destruct (decide (0 ≤ j < Z.of_nat (length ns))) as [Hj|Hj].
    + destruct (lookup_lt_is_Some_2 ns (Z.to_nat j)) as [[d x] Hk]; [lia|].
      pose proof (take_drop_middle _ _ _ Hk) as Hsplit.
      pose proof (f_equal length Hsplit) as Hlen.
      rewrite length_app in Hlen. simpl in Hlen.
      rewrite <- Hsplit in HL, Hf.
      destruct (pop_present fuel σ self L _ d x _ i HL Hf) as (σ1 & p' & Hrun' & HL').
      { fold j. rewrite length_take. lia. }
      rewrite Hrun' in Hrun. simplify_eq. eexists _, _. split; [done|].
      simpl. rewrite length_app. lia.
    + by rewrite (pop_out fuel σ self L ns i HL Hf Hj) in Hrun.
  - intros x σ' Hrun.
    destruct (decide (x ∈ ns.*2)) as [Hin|Hin].
    + apply list_elem_of_split_l in Hin as (k1 & k2 & Hsplit & Hx).
      apply fmap_app_inv in Hsplit as (l1 & l2' & -> & Hk2 & ->).
      symmetry in Hk2. apply fmap_cons_inv in Hk2 as ([d x'] & l2 & Hx' & -> & ->).
      simpl in Hx'. subst x'. rewrite length_app in Hf, Hn. simpl in Hf, Hn.
      destruct (remove_present fuel σ self L l1 d l2 x HL) as (σ1 & p' & Hrun' & HL');
        [lia|done|].
      rewrite Hrun' in Hrun. simplify_eq. eexists _, _. split; [done|].
      simpl. rewrite length_app. lia.
    + by rewrite (remove_absent fuel σ self L ns x HL Hf Hin) in Hrun.
  - intros i x σ' Hrun.
    rewrite (setitem_run fuel σ self L ns i x HL Hf) in Hrun. cbv zeta in Hrun.
    case_decide; [|done].
    destruct (ns !! Z.to_nat _) as [[c y]|] eqn:Hk; [|done]. simplify_eq.
    destruct HL as [HL Hc]. eexists L, _. split.
    + split; [done|]. by eapply chain_set_item.
    + by rewrite length_insert.
  - intros σ' Hrun.
    destruct (invert_spec fuel σ self L ns HL Hf) as (σ1 & p1 & Hrun' & HL' & _).
    rewrite Hrun' in Hrun. simplify_eq. eexists _, _. split; [done|].
    simpl. by rewrite length_reverse.
  - intros reverse σ' Hrun.
    destruct (sort_spec ltb fuel σ self L ns reverse HL Hf)
      as (σ1 & p1 & added & Hrun' & HL' & Hit).
    rewrite Hrun' in Hrun. simplify_eq. eexists _, _. split; [done|].
    simpl. rewrite Hn. f_equal.
    pose proof (Permutation_length (list_sort_perm ltb reverse ns.*2)) as Hp.
    rewrite <- Hit, !length_fmap in Hp. done.
Qed.

(** X14.  [extend] does not keep it: on lists with disjoint chains
    [self.extend(other)] returns with one more node on the chain of [self]
    for each node of [other] while the cached length of [self] stays what it
    was, so a length that counted the nodes before does so afterwards only
    when [other] is empty. *)
Theorem extend_length_unchanged fuel σ self other L Mo ns ms :
  is_list σ self L ns → is_list σ other Mo ms → ns.*1 ## ms.*1 →
  (length ns + length ms < fuel)%nat →
  ∃ σ' L' ns',
    extend fuel self other σ = Ret tt σ'
    ∧ is_list σ' self L' ns'
    ∧ length ns' = (length ns + length ms)%nat
    ∧ __len__ self σ' = Ret (_length L) σ'
    ∧ (_length L = Z.of_nat (length ns) → (counted σ' self ↔ ms = [])).
Proof.
  intros HL HM Hdisj Hf.
  destruct (extend_spec fuel σ self other L Mo ns ms)
    as (σ' & p' & added & Mo' & Hrun & HL' & Hit & HM'); [done..|].
  pose proof (fmap_snd_length _ _ Hit) as Hadd.
  exists σ', (mkLinkedList p' (_length L)), (ns ++ added).
  split; [done|]. split; [done|]. split; [by rewrite length_app, Hadd|].
  split.
  { destruct HL' as [HL' _]. unfold __len__. by rewrite (get_length_Ret _ _ _ HL'). }
  intros Hn. split.
  - intros (L2 & ns2 & [HL2 Hc2] & Hn2). destruct HL' as [HL1 Hc1].
    rewrite HL1 in HL2. simplify_eq. simpl in *.
    pose proof (chain_det _ _ _ _ Hc1 Hc2) as <-.
    rewrite length_app, Hadd in Hn2. destruct ms; [done|simpl in Hn2; lia].
  - intros ->. simpl in Hadd. eexists _, _. split; [done|].
    simpl. rewrite length_app, Hadd. simpl. lia.
Qed.

(** X13.  [self + other] on lists with disjoint chains returns a new object
    reading the items of [self] followed by those of [other], with cached
    length the number of items of [other] alone.  [other] reads as before.
    [self] keeps its cached length but, unless it was empty, now reads the
    concatenation too; an empty [self] still reads empty. *)
Theorem add_shares_chain fuel σ self other L Mo ns ms :
  is_list σ self L ns → is_list σ other Mo ms → ns.*1 ## ms.*1 →
  (length ns + length ms < fuel)%nat →
  ∃ r σ',
    __add__ fuel self other σ = Ret r σ'
    ∧ r ≠ self
    ∧ to_list fuel r σ' = Ret (ns.*2 ++ ms.*2) σ'
    ∧ __len__ r σ' = Ret (Z.of_nat (length ms)) σ'
    ∧ to_list fuel other σ' = Ret ms.*2 σ'
    ∧ __len__ self σ' = Ret (_length L) σ'
    ∧ to_list fuel self σ' = Ret (if ns is [] then [] else ns.*2 ++ ms.*2) σ'.
Proof.
  intros HL HM Hdisj Hf.
  destruct (add_spec fuel σ self other L Mo ns ms)
    as (σ' & r & Lr & added & Hrun & Hne & HLr & Hit & Hlen & HLs & HM' & Hfirst);
    [done..|].
  pose proof (fmap_snd_length _ _ Hit) as Hadd.
  exists r, σ'. split; [done|]. split; [done|]. split.
  { rewrite (to_list_spec _ _ _ _ _ HLr), fmap_app, Hit; [done|].
    rewrite length_app. lia. }
  split.
  { destruct HLr as [HLr _]. unfold __len__.
    by rewrite (get_length_Ret _ _ _ HLr), Hlen. }
  split; [apply (to_list_spec _ _ _ _ _ HM'); lia|].
  split; [unfold __len__; by rewrite (get_length_Ret _ _ _ HLs)|].
  destruct ns as [|n0 ns].
  - apply (to_list_spec _ _ _ L []); [|simpl; lia].
    split; [done|]. destruct HL as [_ Hc]. by rewrite (chain_head _ _ _ Hc).
  - assert (HLs' : is_list σ' self L ((n0 :: ns) ++ added)).
    { split; [done|]. rewrite <- Hfirst by done. by destruct HLr. }
    rewrite (to_list_spec _ _ _ _ _ HLs'), fmap_app, Hit; [done|].
    rewrite length_app. lia.
Qed.

(** ** [__str__] and the iterator *)

Lemma str_loop_spec (str : E → string) fuel σ p ns acc :
  chain (nodes σ) p ns → (length ns < fuel)%nat →
  str_loop str fuel (mkIterator p) acc σ = Ret (acc ++ (str <$> ns.*2)) σ.
Proof.
  revert p ns acc. induction fuel as [|fuel IH]; intros p ns acc Hc Hf; [lia|].
  destruct ns as [|[c x] ns].
  - unfold chain in Hc. simpl in Hc. subst p. simpl. by rewrite app_nil_r.
  - destruct Hc as (-> & nx & Hl & Hs). cbn [str_loop].
    rewrite (next_run _ _ _ _ Hl). rewrite (IH nx ns); [|done|simpl in Hf; lia].
    by rewrite <- app_assoc.
Qed.

(** X11.  [str(L)] drives the iterator of [L] to exhaustion without touching
    the store and gives the items in chain order, each through [str], joined
    by [" -> "] between brackets; the empty list gives ["[]"]. *)
Theorem str_items (str : E → string) fuel σ self L ns :
  is_list σ self L ns → (length ns < fuel)%nat →
  __str__ str fuel self σ
  = Ret ("[" +:+ String.concat " -> " (str <$> ns.*2) +:+ "]")%string σ
  ∧ (ns = [] → __str__ str fuel self σ = Ret "[]"%string σ).
Proof.
  intros [HL Hc] Hf.
  assert (Hrun : __str__ str fuel self σ
    = Ret ("[" +:+ String.concat " -> " (str <$> ns.*2) +:+ "]")%string σ).
  { unfold __str__. mstep (iter_run _ _ _ HL).
    by mstep (str_loop_spec str _ _ _ _ [] Hc Hf). }
  split; [done|]. intros ->. by rewrite Hrun.
Qed.

(** ** [__eq__] again *)

Lemma lockstep_eq_sym (l1 l2 : list E) : lockstep_eq l1 l2 = lockstep_eq l2 l1.
Proof.
  revert l2. induction l1 as [|x l1 IH]; intros [|y l2]; simpl; try done.
  rewrite IH. repeat case_decide; done || congruence.
Qed.

(** X12.  With item equality symmetric, [L == M] and [M == L] give the same
    answer; and whatever the items are, the answer is [True] as soon as one
    of the two lists is empty. *)
Theorem eq_symmetric fuel σ self other L Mo ns ms :
  is_list σ self L ns → is_list σ other Mo ms →
  (length ns `min` length ms < fuel)%nat →
  ∃ b,
    __eq__ fuel self other σ = Ret b σ
    ∧ __eq__ fuel other self σ = Ret b σ
    ∧ (ns = [] ∨ ms = [] → b = true).
Proof.
  intros [HL HcL] [HM HcM] Hf. exists (lockstep_eq ns.*2 ms.*2).
  split; [|split].
  - unfold __eq__. mstep (get_first_Ret _ _ _ HL). mstep (get_first_Ret _ _ _ HM).
    by apply eq_loop_spec.
  - unfold __eq__. mstep (get_first_Ret _ _ _ HM). mstep (get_first_Ret _ _ _ HL).
    rewrite (eq_loop_spec _ _ _ _ ms ns); [by rewrite lockstep_eq_sym|done|done|lia].
  - intros [-> | ->]; [by destruct ms|by destruct ns as [|[??]?]].
Qed.

(** ** What [sort] and [invert] do to another handle on the chain *)

Lemma seg_subseteq h h' p ns q : h ⊆ h' → seg h p ns q → seg h' p ns q.
Proof.
  intros Hsub. revert p. induction ns as [|[c x] ns IH]; intros p; simpl; [done|].
  intros (-> & nx & Hl & Hs). split; [done|]. exists nx.
  split; [by eapply lookup_weaken|]. by apply IH.
Qed.

(** The appends of the constructor write only to nodes that the store [h0]
    it started from does not have. *)
Lemma init_loop_grows fuel self h0 items : ∀ σ L ns,
  is_list σ self L ns → (length ns + length items ≤ fuel)%nat →
  h0 ⊆ nodes σ → (∀ c, c ∈ ns.*1 → h0 !! c = None) →
  ∃ σ', init_loop fuel self items σ = Ret tt σ' ∧ h0 ⊆ nodes σ'.
Proof.
  induction items as [|x items IH]; intros σ L ns HL Hf Hsub Hnew.
  - by exists σ.
  - simpl in Hf. cbn [init_loop]. unfold bind at 1.
    rewrite (append_run fuel σ self L ns x HL), decide_True by lia.
    pose proof (append_is_list _ _ _ _ x HL) as HL1.
    assert (Hd : h0 !! fresh (dom (nodes σ)) = None).
    { destruct (h0 !! fresh (dom (nodes σ))) as [nd|] eqn:Hnd; [|done].
      exfalso. apply (is_fresh (dom (nodes σ))). apply elem_of_dom.
      exists nd. by eapply lookup_weaken. }
    apply (IH _ _ _ HL1).
    + rewrite length_app. simpl. lia.
    + simpl. unfold append_nodes.
      destruct (last ns) as [[t y]|] eqn:Hlast.
      * apply insert_subseteq_r; [|by apply insert_subseteq_r].
        apply Hnew. apply last_Some in Hlast as [l' ->].
        rewrite fmap_app. apply elem_of_app. right. by left.
      * by apply insert_subseteq_r.
    + intros c. rewrite fmap_app.
      intros [Hc|Hc%list_elem_of_singleton]%elem_of_app; [by apply Hnew|].
      simpl in Hc. by subst c.
Qed.

(** X15.  [sort] builds its result out of new nodes: every node that was in
    the store is still there with the same item and the same [next], so any
    other [LinkedList] object, one sharing the chain of [self] included,
    reads after the sort what it read before. *)
Theorem sort_keeps_old_nodes (ltb : E → E → bool) fuel σ self L ns reverse :
  is_list σ self L ns → (length ns < fuel)%nat →
  ∃ σ',
    sort ltb fuel self reverse σ = Ret tt σ'
    ∧ nodes σ ⊆ nodes σ'
    ∧ (∀ other Mo ms, other ≠ self → is_list σ other Mo ms →
         is_list σ' other Mo ms
         ∧ (∀ fuel', (length ms < fuel')%nat →
              to_list fuel' other σ' = Ret ms.*2 σ')).
Proof.
  intros HL Hf. unfold sort. mstep (to_list_spec _ _ _ _ _ HL Hf).
  destruct HL as [HL Hc].
  set (r := fresh (dom (lists σ))).
  set (σ1 := mkState (nodes σ) (<[r := mkLinkedList None 0]> (lists σ))).
  set (lst := list_sort ltb reverse ns.*2).
  assert (HL1 : is_list σ1 r (mkLinkedList None 0) []).
  { split; [simpl; by rewrite lookup_insert_eq|done]. }
  assert (Hlst : (length lst ≤ fuel)%nat).
  { unfold lst. rewrite list_sort_perm, length_fmap. lia. }
  destruct (init_loop_spec fuel r lst σ1 _ [] HL1)
    as (σ2 & L2 & added & Hrun & Hlists & _); [simpl; lia|].
  destruct (init_loop_grows fuel r (nodes σ) lst σ1 _ [] HL1)
    as (σ2' & Hrun' & Hsub); [simpl; lia|done|by intros c ?%elem_of_nil|].
  rewrite Hrun in Hrun'. simplify_eq.
  assert (Hinit : __init__ fuel (Some lst) None σ = Ret r σ2').
  { unfold __init__. mstep (new_object_Ret σ (mkLinkedList None 0)).
    fold r σ1. destruct lst; [|by mstep Hrun].
    simpl in Hrun. unfold ret in Hrun. by simplify_eq. }
  mstep Hinit.
  assert (Hrs : r ≠ self) by by eapply lookup_fresh_ne.
  assert (Hr2 : lists σ2' !! r = Some L2) by by rewrite Hlists, lookup_insert_eq.
  assert (Hs2 : lists σ2' !! self = Some L).
  { rewrite Hlists, lookup_insert_ne by done. simpl. by rewrite lookup_insert_ne. }
  mstep (get_first_Ret _ _ _ Hr2). rewrite (set_first_Ret _ _ _ _ Hs2).
  eexists. split; [done|]. split; [done|].
  intros other Mo ms Hne [HM HcM].
  assert (HM' : is_list
    (mkState (nodes σ2')
       (<[self := mkLinkedList (_first L2) (_length L)]> (lists σ2'))) other Mo ms).
  { split; simpl.
    - rewrite lookup_insert_ne by done. rewrite Hlists. simpl.
      rewrite !lookup_insert_ne; [done|by eapply lookup_fresh_ne..].
    - by eapply seg_subseteq. }
  split; [done|]. intros fuel' Hf'. by apply (to_list_spec _ _ _ _ _ HM').
Qed.

(** X16.  [invert] relinks the shared nodes themselves: the node that was
    the head is the last one afterwards, so another object still pointing at
    it, such as a copy taken before, reads a one-item list from then on. *)
Theorem invert_truncates_alias fuel σ self other L Mo c x ns :
  is_list σ self L ((c, x) :: ns) → lists σ !! other = Some Mo →
  _first Mo = Some c → other ≠ self → (S (length ns) < fuel)%nat →
  ∃ σ',
    invert fuel self σ = Ret tt σ'
    ∧ is_list σ' other Mo [(c, x)]
    ∧ to_list fuel other σ' = Ret [x] σ'
    ∧ to_list fuel self σ' = Ret (reverse ns.*2 ++ [x]) σ'.
Proof.
  intros [HL Hc] HM Hfirst Hne Hf. unfold invert. mstep (get_first_Ret _ _ _ HL).
  destruct (invert_loop_spec fuel σ (_first L) None ((c, x) :: ns) [] Hc)
    as (σ1 & p1 & Hrun & Hch & Hdom & Hli); [done|by intros a _ ?%elem_of_nil|done|].
  mstep Hrun. rewrite <- Hli in HL, HM. rewrite (set_first_Ret _ _ _ _ HL).
  rewrite app_nil_r, reverse_cons in Hch.
  pose proof Hch as (m & _ & Hlast)%seg_app.
  pose proof Hlast as (-> & _).
  set (σ2 := mkState _ _).
  assert (HM2 : is_list σ2 other Mo [(c, x)]).
  { split; simpl; [by rewrite lookup_insert_ne|by rewrite Hfirst]. }
  assert (HL2 : is_list σ2 self (mkLinkedList p1 (_length L)) (reverse ns ++ [(c, x)])).
  { split; simpl; [by rewrite lookup_insert_eq|done]. }
  exists σ2. split; [done|]. split; [done|]. split.
  - apply (to_list_spec _ _ _ _ _ HM2). simpl. lia.
  - rewrite (to_list_spec _ _ _ _ _ HL2), fmap_app, fmap_reverse; [done|].
    rewrite length_app, length_reverse. simpl. lia.
Qed.

(** ** Indexing after [extend] and [copy], writing through a shared chain *)

(** X17.  After [self.extend(other)] on a list whose cached length counted
    its nodes, a negative index still counts back from the old end: [self[i]]
    with [i < 0] gives what it gave before the call, or raises as it did,
    while a non-negative [i] reads the lengthened chain. *)
Theorem extend_negative_index fuel σ self other L Mo ns ms :
  is_list σ self L ns → is_list σ other Mo ms → ns.*1 ## ms.*1 →
  _length L = Z.of_nat (length ns) → (length ns + length ms < fuel)%nat →
  ∃ σ',
    extend fuel self other σ = Ret tt σ'
    ∧ (∀ i x, i < 0 → __getitem__ fuel self i σ = Ret x σ →
         __getitem__ fuel self i σ' = Ret x σ')
    ∧ (∀ i, i < 0 → __getitem__ fuel self i σ = Raise IndexError σ →
         __getitem__ fuel self i σ' = Raise IndexError σ')
    ∧ (∀ (k : nat) x, (ns.*2 ++ ms.*2) !! k = Some x →
         __getitem__ fuel self (Z.of_nat k) σ' = Ret x σ').
Proof.
  intros HL HM Hdisj Hn Hf.
  destruct (extend_spec fuel σ self other L Mo ns ms)
    as (σ' & p' & added & Mo' & Hrun & HL' & Hit & HM'); [done..|].
  pose proof (fmap_snd_length _ _ Hit) as Hadd.
  assert (Hf' : (length (ns ++ added) < fuel)%nat) by (rewrite length_app; lia).
  assert (Hfn : (length ns < fuel)%nat) by lia.
  pose proof (λ i, getitem_run fuel σ self L ns i HL Hfn) as Hold.
  pose proof (λ i, getitem_run fuel σ' self _ _ i HL' Hf') as Hnew.
  cbv zeta in Hold, Hnew. simpl _length in Hnew.
  exists σ'. split; [done|]. split; [|split].
  - intros i x Hi Hget. rewrite Hold in Hget. rewrite Hnew.
    rewrite (decide_True (P := i < 0)) in Hget |- * by done.
    case_decide; [|done].
    destruct (ns !! Z.to_nat (_length L + i)) as [[c y]|] eqn:Hk; [|done].
    rewrite (lookup_app_l_Some _ _ _ _ Hk). by simplify_eq.
  - intros i Hi Hget. rewrite Hold in Hget. rewrite Hnew.
    rewrite (decide_True (P := i < 0)) in Hget |- * by done.
    case_decide; [|done].
    destruct (ns !! Z.to_nat (_length L + i)) as [[c y]|] eqn:Hk; [done|].
    apply lookup_ge_None_1 in Hk. lia.
  - intros k x Hk. rewrite Hnew.
    rewrite (decide_False (P := Z.of_nat k < 0)) by lia.
    rewrite decide_True by lia. rewrite Nat2Z.id.
    rewrite <- Hit, <- fmap_app, list_lookup_fmap in Hk.
    destruct ((ns ++ added) !! k) as [[c y]|]; simplify_eq/=. done.
Qed.

(** X18.  On the object [copy] returns, every non-negative position of the
    original reads the same item, and every negative index raises
    [IndexError]: the cached length it is adjusted by is 0. *)
Theorem copy_getitem fuel σ self L ns :
  is_list σ self L ns → (length ns < fuel)%nat →
  ∃ r σ',
    copy fuel self σ = Ret r σ'
    ∧ (∀ (k : nat) x, ns.*2 !! k = Some x →
         __getitem__ fuel r (Z.of_nat k) σ' = Ret x σ')
    ∧ (∀ i, i < 0 → __getitem__ fuel r i σ' = Raise IndexError σ').
Proof.
  intros HL Hf.
  destruct HL as [HL Hc].
  assert (HLr : is_list (copy_state σ L) (fresh (dom (lists σ)))
                  (mkLinkedList (_first L) 0) ns).
  { split; [simpl; by rewrite lookup_insert_eq|done]. }
  pose proof (λ i, getitem_run fuel _ _ _ _ i HLr Hf) as Hget.
  cbv zeta in Hget. simpl _length in Hget.
  exists (fresh (dom (lists σ))), (copy_state σ L).
  split; [by apply copy_run|]. split.
  - intros k x Hk. rewrite Hget.
    rewrite (decide_False (P := Z.of_nat k < 0)) by lia.
    rewrite decide_True by lia. rewrite Nat2Z.id.
    rewrite list_lookup_fmap in Hk.
    destruct (ns !! k) as [[c y]|]; simplify_eq/=. done.
  - intros i Hi. rewrite Hget. rewrite (decide_True (P := i < 0)) by done.
    by rewrite decide_False by lia.
Qed.

(** X19.  An item written through one [LinkedList] object is read through
    every object heading the same chain: after [self[i] = x] succeeds,
    [to_list] of such an [other] has [x] at that position too. *)
Theorem setitem_seen_by_alias fuel σ self other L Mo ns i x :
  is_list σ self L ns → is_list σ other Mo ns → (length ns < fuel)%nat →
  let j := if decide (i < 0) then _length L + i else i in
  0 ≤ j < Z.of_nat (length ns) →
  ∃ σ',
    __setitem__ fuel self i x σ = Ret tt σ'
    ∧ to_list fuel self σ' = Ret (<[Z.to_nat j := x]> ns.*2) σ'
    ∧ to_list fuel other σ' = Ret (<[Z.to_nat j := x]> ns.*2) σ'.
Proof.
  intros HL HM Hf j Hj.
  pose proof (setitem_run fuel σ self L ns i x HL Hf) as Hrun.
  cbv zeta in Hrun. fold j in Hrun. rewrite decide_True in Hrun by lia.
  destruct (lookup_lt_is_Some_2 ns (Z.to_nat j)) as [[c y] Hk]; [lia|].
  rewrite Hk in Hrun. eexists. split; [done|].
  destruct HL as [HL Hc], HM as [HM HcM].
  assert (Hf' : (length (<[Z.to_nat j := (c, x)]> ns) < fuel)%nat)
    by by rewrite length_insert.
  split.
  - rewrite (to_list_spec _ _ self L (<[Z.to_nat j := (c, x)]> ns));
      [by rewrite list_fmap_insert| |done].
    split; [done|]. by eapply chain_set_item.
  - rewrite (to_list_spec _ _ other Mo (<[Z.to_nat j := (c, x)]> ns));
      [by rewrite list_fmap_insert| |done].
    split; [done|]. by eapply chain_set_item.
Qed.

(** ** [extend] and [__add__] of a one-node list with itself *)

(** On a one-node list the iterator has left the only node when the first
    append runs, so the loop stops after one round. *)
Lemma self_extend_one_node fuel σ self L c x :
  is_list σ self L [(c, x)] → (2 ≤ fuel)%nat →
  (∃ σ', extend fuel self self σ = Ret tt σ'
     ∧ to_list (S fuel) self σ' = Ret [x; x] σ')
  ∧ (∃ r σ', __add__ fuel self self σ = Ret r σ'
       ∧ to_list (S fuel) r σ' = Ret [x; x] σ').
Proof.
  intros [HL Hc] Hf.
  set (r := fresh (dom (lists σ))). set (σc := copy_state σ L).
  assert (Hrs : r ≠ self) by by eapply lookup_fresh_ne.
  assert (HLc : lists σc !! self = Some L) by (simpl; by rewrite lookup_insert_ne).
  assert (Hr : is_list σc r (mkLinkedList (_first L) 0) [(c, x)]).
  { split; [simpl; by rewrite lookup_insert_eq|done]. }
  pose proof Hc as (Hfirst & nx & Hl & Hnx).
  unfold chain in Hnx. simpl in Hnx. subst nx.
  pose proof (append_is_list _ _ _ _ x Hr) as Hr1.
  set (σ1 := append_state σc r (mkLinkedList (_first L) 0) [(c, x)] x) in *.
  assert (Hloop : for_each fuel (mkIterator (_first L)) (λ y, append fuel r y) σc
                  = Ret tt σ1).
  { destruct fuel as [|[|fuel]]; [lia|lia|]. rewrite Hfirst. cbn [for_each].
    rewrite (next_run σc c x None Hl). unfold bind at 1.
    rewrite (append_run _ σc r _ _ x Hr), decide_True by (simpl; lia).
    done. }
  assert (Hr1' : lists σ1 !! r = Some (mkLinkedList (_first L) (0 + 1))).
  { destruct Hr1 as [Hr1 _]. by rewrite Hr1. }
  assert (Hs1 : lists σ1 !! self = Some L).
  { simpl. rewrite lookup_insert_ne by done. by rewrite lookup_insert_ne. }
  split.
  - unfold extend. mstep (copy_run fuel σ self L HL). mstep (iter_run _ _ _ HLc).
    mstep Hloop. mstep (get_first_Ret _ _ _ Hr1').
    rewrite (set_first_Ret _ _ _ _ Hs1). eexists. split; [done|].
    apply (to_list_spec _ _ _ (mkLinkedList (_first L) (_length L))
             ([(c, x)] ++ [(fresh (dom (nodes σc)), x)])); [|simpl; lia].
    split; simpl; [by rewrite lookup_insert_eq|]. by destruct Hr1.
  - unfold __add__. mstep (copy_run fuel σ self L HL). mstep (iter_run _ _ _ HLc).
    mstep Hloop. exists r, σ1. split; [done|].
    apply (to_list_spec _ _ _ _ _ Hr1). simpl. lia.
Qed.

End chains.

Example init_123 :
  __init__ 3 (Some [1; 2; 3]) None empty_store = Ret 1%positive store_123.
Proof. vm_compute. reflexivity. Qed.

Example init_312 :
  __init__ 3 (Some [3; 1; 2]) None empty_store = Ret 1%positive store_312.
Proof. vm_compute. reflexivity. Qed.

Example init_12_3 :
  bind (__init__ 2 (Some [1; 2]) None) (λ _, __init__ 1 (Some [3]) None)
    empty_store
  = Ret 2%positive store_12_3.
Proof. vm_compute. reflexivity. Qed.

Example init_7 :
  __init__ 1 (Some [7]) None empty_store = Ret 1%positive store_7.
Proof. vm_compute. reflexivity. Qed.

Ltac concrete_chain :=
  repeat first [reflexivity | split | eexists].

Lemma store_123_list :
  is_list store_123 1 (mkLinkedList (Some 1%positive) 3)
    [(1%positive, 1); (2%positive, 2); (3%positive, 3)].
Proof. concrete_chain. Qed.

Lemma store_312_list :
  is_list store_312 1 (mkLinkedList (Some 1%positive) 3)
    [(1%positive, 3); (2%positive, 1); (3%positive, 2)].
Proof. concrete_chain. Qed.

Lemma store_12_3_first :
  is_list store_12_3 1 (mkLinkedList (Some 1%positive) 2)
    [(1%positive, 1); (2%positive, 2)].
Proof. concrete_chain. Qed.

Lemma store_12_3_second :
  is_list store_12_3 2 (mkLinkedList (Some 3%positive) 1) [(3%positive, 3)].
Proof. concrete_chain. Qed.

Lemma store_7_list :
  is_list store_7 1 (mkLinkedList (Some 1%positive) 1) [(1%positive, 7)].
Proof. concrete_chain. Qed.

Lemma disjoint_12_3 :
  ([(1%positive, 1); (2%positive, 2)] : list (positive * Z)).*1
  ## ([(3%positive, 3)] : list (positive * Z)).*1.
Proof.
  intros a Ha Hb. apply list_elem_of_singleton in Hb. subst a.
  simpl in Ha. do 2 (apply elem_of_cons in Ha as [Ha|Ha]; [discriminate|]).
  by apply elem_of_nil in Ha.
Qed.

(** * The two places where the code departs from its own contract *)

(** C1.  The cached length is not kept equal to the number of nodes.  On
    [L = [1, 2]] and [M = [3]], where both counters are right to begin with:
    [L.copy()] has two nodes and answers length 0; after [L.extend(M)], [L]
    has three nodes and answers length 2; [L + M] has three nodes and
    answers length 1. *)
Theorem cached_length_stale :
  __len__ 1 store_12_3 = Ret 2 store_12_3
  ∧ to_list 3 1 store_12_3 = Ret [1; 2] store_12_3
  ∧ (∃ r σ', copy 3 1 store_12_3 = Ret r σ'
       ∧ __len__ r σ' = Ret 0 σ' ∧ to_list 3 r σ' = Ret [1; 2] σ')
  ∧ (∃ σ', extend 4 1 2 store_12_3 = Ret tt σ'
       ∧ __len__ 1 σ' = Ret 2 σ' ∧ to_list 4 1 σ' = Ret [1; 2; 3] σ')
  ∧ (∃ r σ', __add__ 4 1 2 store_12_3 = Ret r σ'
       ∧ __len__ r σ' = Ret 1 σ' ∧ to_list 4 r σ' = Ret [1; 2; 3] σ').
Proof.
  split; [vm_compute; reflexivity|]. split; [vm_compute; reflexivity|].
  split; [|split].
  - do 2 eexists. split; [vm_compute; reflexivity|].
    split; vm_compute; reflexivity.
  - eexists. split; [vm_compute; reflexivity|].
    split; vm_compute; reflexivity.
  - do 2 eexists. split; [vm_compute; reflexivity|].
    split; vm_compute; reflexivity.
Qed.

(** C2.  [L + M] does not leave [L] alone.  On [L = [1, 2]] and [M = [3]] it
    returns a new object holding [1, 2, 3], and from then on [to_list] of [L]
    gives [1, 2, 3] too: the new object shares the nodes of [L], and the
    append has linked the last of them to the new node. *)
Theorem add_mutates_self :
  to_list 4 1 store_12_3 = Ret [1; 2] store_12_3
  ∧ ∃ r σ', __add__ 4 1 2 store_12_3 = Ret r σ'
      ∧ r ≠ 1%positive
      ∧ to_list 4 r σ' = Ret [1; 2; 3] σ'
      ∧ to_list 4 1 σ' = Ret [1; 2; 3] σ'
      ∧ __len__ 1 σ' = Ret 2 σ'.
Proof.
  split; [vm_compute; reflexivity|].
  do 2 eexists. split; [vm_compute; reflexivity|].
  split; [done|]. repeat split; vm_compute; reflexivity.
Qed.

(** C10 as first stated fails on a one-node list: [L.extend(L)] and [L + L]
    on [L = [7]] return, the iterator having left the only node before the
    append lengthens the chain. *)
Lemma self_extend_singleton_returns :
  is_list store_7 1 (mkLinkedList (Some 1%positive) 1) [(1%positive, 7)]
  ∧ ¬ (∀ fuel, extend fuel 1 1 store_7 = OutOfFuel)
  ∧ ¬ (∀ fuel, __add__ fuel 1 1 store_7 = OutOfFuel)
  ∧ (∃ σ', extend 2 1 1 store_7 = Ret tt σ'
       ∧ to_list 3 1 σ' = Ret [7; 7] σ')
  ∧ (∃ r σ', __add__ 2 1 1 store_7 = Ret r σ'
       ∧ to_list 3 r σ' = Ret [7; 7] σ').
Proof.
  split; [apply store_7_list|].
  split; [intros H; specialize (H 2%nat); vm_compute in H; discriminate|].
  split; [intros H; specialize (H 2%nat); vm_compute in H; discriminate|].
  split.
  - eexists. split; vm_compute; reflexivity.
  - do 2 eexists. split; vm_compute; reflexivity.
Qed.

(** * The theorems at concrete lists *)

Lemma extend_elements_witness :
  ∃ σ', extend 4 1 2 store_12_3 = Ret tt σ'
    ∧ to_list 4 1 σ' = Ret [1; 2; 3] σ'
    ∧ to_list 4 2 σ' = Ret [3] σ'.
Proof.
  destruct (extend_elements 4 store_12_3 1 2 _ _ _ _
              store_12_3_first store_12_3_second disjoint_12_3)
    as (_ & _ & σ' & H); [simpl; lia|].
  exists σ'. exact H.
Defined.

Lemma eq_lockstep_witness :
  ∃ b, __eq__ 2 2 1 store_12_3 = Ret b store_12_3 ∧ b = false.
Proof.
  destruct (eq_lockstep 2 store_12_3 2 1 _ _ _ _
              store_12_3_second store_12_3_first)
    as (b & Hrun & _ & Hfalse); [simpl; lia|].
  exists b. split; [exact Hrun|].
  apply Hfalse. exists 0%nat, 3, 1. repeat split; discriminate.
Defined.


Lemma remove_first_value_witness :
  remove 4 1 9 store_123 = Raise ValueError store_123.
Proof.
  destruct (remove_first_value 4 store_123 1 _ _ 9 store_123_list)
    as (_ & _ & Habsent & _); [simpl; lia|].
  apply Habsent. simpl. intros Hin.
  do 3 (apply elem_of_cons in Hin as [Hin|Hin]; [discriminate|]).
  by apply elem_of_nil in Hin.
Defined.

Lemma Z_ltb_asym (x y : Z) : (x <? y) = true → (y <? x) = false.
Proof. lia. Qed.

Lemma Z_ltb_negtrans (x y z : Z) :
  (y <? x) = false → (z <? y) = false → (z <? x) = false.
Proof. lia. Qed.

Lemma sort_ordered_witness :
  ∃ σ' l', sort Z.ltb 4 1 false store_312 = Ret tt σ'
    ∧ to_list 4 1 σ' = Ret l' σ'
    ∧ StronglySorted (not_after Z.ltb) l'.
Proof.
  destruct (sort_ordered Z.ltb 4 store_312 1 _ _ false
              Z_ltb_asym Z_ltb_negtrans store_312_list)
    as (σ' & l' & Hrun & Hl & _ & _ & Hs & _); [simpl; lia|].
  exists σ', l'. auto.
Defined.

Lemma invert_twice_witness :
  ∃ σ1 σ2, invert 4 1 store_123 = Ret tt σ1
    ∧ to_list 4 1 σ1 = Ret [3; 2; 1] σ1
    ∧ invert 4 1 σ1 = Ret tt σ2
    ∧ to_list 4 1 σ2 = Ret [1; 2; 3] σ2.
Proof.
  destruct (invert_twice 4 store_123 1 _ _ store_123_list)
    as (σ1 & σ2 & p1 & p2 & H1 & _ & _ & Hl1 & _ & H2 & _ & Hl2); [simpl; lia|].
  exists σ1, σ2. auto.
Defined.

Lemma copy_length_zero_witness :
  ∃ r σ', copy 0 1 store_123 = Ret r σ'
    ∧ __len__ r σ' = Ret 0 σ'
    ∧ get_first r σ' = Ret (Some 1%positive) σ'.
Proof.
  destruct (copy_length_zero 0 store_123 1 _ _ store_123_list)
    as (r & σ' & Hrun & _ & Hlen & Hfirst & _).
  exists r, σ'. auto.
Defined.

Lemma self_extend_diverges_witness :
  extend 100 1 1 store_123 = OutOfFuel ∧ __add__ 100 1 1 store_123 = OutOfFuel.
Proof.
  apply (self_extend_diverges 100 store_123 1 _ _ store_123_list).
  simpl. lia.
Defined.

(** The scenarios of the specification, run. *)

Example getitem_scenario :
  __getitem__ 4 1 (-1) store_123 = Ret 3 store_123
  ∧ __getitem__ 4 1 (-3) store_123 = Ret 1 store_123
  ∧ __getitem__ 4 1 (-4) store_123 = Raise IndexError store_123.
Proof. repeat split; vm_compute; reflexivity. Qed.

Example sort_scenario :
  (∃ σ', sort Z.ltb 4 1 false store_312 = Ret tt σ'
     ∧ to_list 4 1 σ' = Ret [1; 2; 3] σ' ∧ __len__ 1 σ' = Ret 3 σ')
  ∧ (∃ σ', sort Z.ltb 4 1 true store_312 = Ret tt σ'
       ∧ to_list 4 1 σ' = Ret [3; 2; 1] σ' ∧ __len__ 1 σ' = Ret 3 σ').
Proof. split; eexists; repeat split; vm_compute; reflexivity. Qed.

Example remove_scenario :
  remove 4 1 9 store_123 = Raise ValueError store_123
  ∧ ∃ σ', remove 4 1 2 store_123 = Ret tt σ'
      ∧ to_list 4 1 σ' = Ret [1; 3] σ' ∧ __len__ 1 σ' = Ret 2 σ'.
Proof. split; [|eexists]; repeat split; vm_compute; reflexivity. Qed.

Example eq_scenario :
  (∃ r σ', __init__ 3 (Some [1; 2]) None store_123 = Ret r σ'
     ∧ __eq__ 3 1 r σ' = Ret true σ' ∧ __eq__ 3 r 1 σ' = Ret true σ').
Proof. do 2 eexists. repeat split; vm_compute; reflexivity. Qed.

(** * The rest of the container at concrete lists *)

Example copy_312 : copy 0 1 store_312 = Ret 2%positive store_312_copy.
Proof. vm_compute. reflexivity. Qed.

Lemma store_312_copy_self :
  is_list store_312_copy 1 (mkLinkedList (Some 1%positive) 3)
    [(1%positive, 3); (2%positive, 1); (3%positive, 2)].
Proof. concrete_chain. Qed.

Lemma store_312_copy_alias :
  is_list store_312_copy 2 (mkLinkedList (Some 1%positive) 0)
    [(1%positive, 3); (2%positive, 1); (3%positive, 2)].
Proof. concrete_chain. Qed.

Lemma init_to_list_witness :
  ∃ r σ', __init__ 3 (Some [1; 2; 3]) None empty_store = Ret r σ'
    ∧ to_list 4 r σ' = Ret [1; 2; 3] σ'
    ∧ __len__ r σ' = Ret 3 σ'.
Proof.
  destruct (init_to_list 3 empty_store [1; 2; 3])
    as (r & σ' & Hrun & _ & Hl & Hn & _); [simpl; lia|].
  exists r, σ'. auto.
Defined.

Lemma append_last_witness :
  ∃ σ', append 4 1 9 store_123 = Ret tt σ'
    ∧ to_list 5 1 σ' = Ret [1; 2; 3; 9] σ'
    ∧ __getitem__ 5 1 (-1) σ' = Ret 9 σ'.
Proof.
  destruct (append_last 4 store_123 1 _ _ 9 store_123_list)
    as (σ' & Hrun & Hl & _ & _ & Hg); [simpl; lia|].
  exists σ'. split; [exact Hrun|]. split; [exact Hl|]. apply Hg. reflexivity.
Defined.

Lemma setitem_getitem_witness :
  ∃ σ', __setitem__ 4 1 (-1) 9 store_123 = Ret tt σ'
    ∧ to_list 4 1 σ' = Ret [1; 2; 9] σ'
    ∧ __getitem__ 4 1 (-1) σ' = Ret 9 σ'.
Proof.
  destruct (setitem_getitem 4 store_123 1 _ _ (-1) 9 store_123_list)
    as [Hin _]; [simpl; lia|].
  destruct Hin as (σ' & Hrun & Hl & Hg & _); [simpl; lia|].
  exists σ'. split; [exact Hrun|]. split; [exact Hl|exact Hg].
Defined.

Lemma insert_at_witness :
  ∃ σ', insert 4 1 (-1) 9 store_123 = Ret tt σ'
    ∧ to_list 5 1 σ' = Ret [1; 2; 9; 3] σ'
    ∧ __len__ 1 σ' = Ret 4 σ'.
Proof.
  destruct (insert_at 4 store_123 1 _ _ (-1) 9 store_123_list)
    as [Hin _]; [simpl; lia|].
  destruct Hin as (σ' & Hrun & Hl & Hn); [simpl; lia|].
  exists σ'. split; [exact Hrun|]. split; [exact Hl|exact Hn].
Defined.

Lemma insert_pop_front_witness :
  ∃ σ1 σ2, insert 4 1 0 9 store_123 = Ret tt σ1
    ∧ pop 4 1 0 σ1 = Ret 9 σ2
    ∧ to_list 4 1 σ2 = Ret [1; 2; 3] σ2
    ∧ __len__ 1 σ2 = Ret 3 σ2.
Proof.
  destruct (insert_pop_front 4 store_123 1 _ _ 9 store_123_list)
    as (σ1 & σ2 & H1 & H2 & _ & Hl & Hn); [simpl; lia|].
  exists σ1, σ2. auto.
Defined.

Lemma pop_at_witness :
  ∃ σ', pop 4 1 1 store_123 = Ret 2 σ'
    ∧ to_list 4 1 σ' = Ret [1; 3] σ'
    ∧ __len__ 1 σ' = Ret 2 σ'.
Proof.
  destruct (pop_at 4 store_123 1 _ _ 1 store_123_list) as [Hin _]; [simpl; lia|].
  destruct (Hin [(1%positive, 1)] 2%positive 2 [(3%positive, 3)])
    as (σ' & p' & Hrun & _ & _ & Hl & Hn); [reflexivity|reflexivity|].
  exists σ'. split; [exact Hrun|]. split; [exact Hl|exact Hn].
Defined.

Lemma contains_membership_witness :
  __contains__ 4 1 2 store_123 = Ret true store_123.
Proof.
  rewrite (contains_membership 4 store_123 1 _ _ 2 store_123_list); [|simpl; lia].
  reflexivity.
Defined.

Lemma count_occurrences_witness :
  ∃ n : nat, count 4 1 2 store_123 = Ret (Z.of_nat n) store_123 ∧ n = 1%nat.
Proof.
  destruct (count_occurrences 4 store_123 1 _ _ 2 store_123_list)
    as (n & Hrun & Hn & _); [simpl; lia|].
  exists n. split; [exact Hrun|]. rewrite Hn. reflexivity.
Defined.

Lemma index_first_witness :
  index 4 1 3 store_123 = Ret 2 store_123
  ∧ __getitem__ 4 1 2 store_123 = Ret 3 store_123.
Proof.
  destruct (index_first 4 store_123 1 _ _ 3 store_123_list)
    as (_ & _ & Hpres); [simpl; lia|].
  apply (Hpres [(1%positive, 1); (2%positive, 2)] 3%positive []); [reflexivity|].
  simpl. intros Hin.
  do 2 (apply elem_of_cons in Hin as [Hin|Hin]; [discriminate|]).
  by apply elem_of_nil in Hin.
Defined.

Lemma counted_kept_witness :
  ∃ σ', pop 4 1 (-1) store_123 = Ret 3 σ' ∧ counted σ' 1.
Proof.
  eexists. split; [vm_compute; reflexivity|].
  destruct (counted_kept Z.ltb 4 store_123 1 _ _ store_123_list)
    as (_ & _ & Hpop & _); [reflexivity|simpl; lia|].
  apply (Hpop (-1) 3). vm_compute. reflexivity.
Defined.

Lemma extend_length_unchanged_witness :
  ∃ σ', extend 4 1 2 store_12_3 = Ret tt σ'
    ∧ __len__ 1 σ' = Ret 2 σ'
    ∧ ¬ counted σ' 1.
Proof.
  destruct (extend_length_unchanged 4 store_12_3 1 2 _ _ _ _
              store_12_3_first store_12_3_second disjoint_12_3)
    as (σ' & L' & ns' & Hrun & _ & _ & Hn & Hc); [simpl; lia|].
  exists σ'. split; [exact Hrun|]. split; [exact Hn|].
  intros Hcounted. apply Hc in Hcounted; [discriminate|reflexivity].
Defined.

Lemma add_shares_chain_witness :
  ∃ r σ', __add__ 4 1 2 store_12_3 = Ret r σ'
    ∧ to_list 4 r σ' = Ret [1; 2; 3] σ'
    ∧ __len__ r σ' = Ret 1 σ'
    ∧ to_list 4 1 σ' = Ret [1; 2; 3] σ'.
Proof.
  destruct (add_shares_chain 4 store_12_3 1 2 _ _ _ _
              store_12_3_first store_12_3_second disjoint_12_3)
    as (r & σ' & Hrun & _ & Hl & Hn & _ & _ & Hs); [simpl; lia|].
  exists r, σ'. auto.
Defined.

Lemma str_items_witness :
  __str__ pretty 4 1 store_123 = Ret "[1 -> 2 -> 3]"%string store_123.
Proof.
  destruct (str_items pretty 4 store_123 1 _ _ store_123_list) as [Hrun _];
    [simpl; lia|].
  rewrite Hrun. vm_compute. reflexivity.
Defined.

Lemma eq_symmetric_witness :
  ∃ b, __eq__ 2 1 2 store_12_3 = Ret b store_12_3
    ∧ __eq__ 2 2 1 store_12_3 = Ret b store_12_3.
Proof.
  destruct (eq_symmetric 2 store_12_3 1 2 _ _ _ _
              store_12_3_first store_12_3_second)
    as (b & H1 & H2 & _); [simpl; lia|].
  exists b. auto.
Defined.

Lemma sort_keeps_old_nodes_witness :
  ∃ σ', sort Z.ltb 4 1 false store_312_copy = Ret tt σ'
    ∧ to_list 4 2 σ' = Ret [3; 1; 2] σ'.
Proof.
  destruct (sort_keeps_old_nodes Z.ltb 4 store_312_copy 1 _ _ false
              store_312_copy_self)
    as (σ' & Hrun & _ & Hother); [simpl; lia|].
  exists σ'. split; [exact Hrun|].
  destruct (Hother 2%positive _ _ ltac:(discriminate) store_312_copy_alias)
    as [_ Hl].
  apply Hl. simpl. lia.
Defined.

Lemma invert_truncates_alias_witness :
  ∃ σ', invert 4 1 store_312_copy = Ret tt σ'
    ∧ to_list 4 2 σ' = Ret [3] σ'
    ∧ to_list 4 1 σ' = Ret [2; 1; 3] σ'.
Proof.
  destruct (invert_truncates_alias 4 store_312_copy 1 2 _
              (mkLinkedList (Some 1%positive) 0) _ _ _ store_312_copy_self)
    as (σ' & Hrun & _ & Hl2 & Hl1);
    [reflexivity|reflexivity|discriminate|simpl; lia|].
  exists σ'. auto.
Defined.

Lemma extend_negative_index_witness :
  ∃ σ', extend 4 1 2 store_12_3 = Ret tt σ'
    ∧ __getitem__ 4 1 (-1) σ' = Ret 2 σ'
    ∧ __getitem__ 4 1 2 σ' = Ret 3 σ'.
Proof.
  destruct (extend_negative_index 4 store_12_3 1 2 _ _ _ _
              store_12_3_first store_12_3_second disjoint_12_3)
    as (σ' & Hrun & Hneg & _ & Hpos); [reflexivity|simpl; lia|].
  exists σ'. split; [exact Hrun|]. split.
  - apply Hneg; [lia|]. vm_compute. reflexivity.
  - apply (Hpos 2%nat). reflexivity.
Defined.

Lemma copy_getitem_witness :
  ∃ r σ', copy 4 1 store_123 = Ret r σ'
    ∧ __getitem__ 4 r 2 σ' = Ret 3 σ'
    ∧ __getitem__ 4 r (-1) σ' = Raise IndexError σ'.
Proof.
  destruct (copy_getitem 4 store_123 1 _ _ store_123_list)
    as (r & σ' & Hrun & Hpos & Hneg); [simpl; lia|].
  exists r, σ'. split; [exact Hrun|]. split.
  - apply (Hpos 2%nat). reflexivity.
  - apply Hneg. lia.
Defined.

Lemma setitem_seen_by_alias_witness :
  ∃ σ', __setitem__ 4 1 1 9 store_312_copy = Ret tt σ'
    ∧ to_list 4 2 σ' = Ret [3; 9; 2] σ'.
Proof.
  destruct (setitem_seen_by_alias 4 store_312_copy 1 2 _ _ _ 1 9
              store_312_copy_self store_312_copy_alias)
    as (σ' & Hrun & _ & Hl); [simpl; lia|simpl; lia|].
  exists σ'. split; [exact Hrun|exact Hl].
Defined.

